(** * BigCorp shop models: a verification development for [shop/models.py]

    The module declares two Django models ([Category], [Product]), a proxy
    model with a filtering manager ([ProductProxy], [ProductManager]) and the
    helper [rand_slug].  The embedding below follows the Python text:

    - a Python [str] is a list of Unicode code points ([pystr]);
    - the global generator of the [random] module, the database tables and
      the receiver [self] are threaded explicitly through a state and
      exception monad ([Py]);
    - the framework functions the module calls ([random.choice],
      [django.utils.text.slugify], [Model.save], [Model.delete],
      [Manager.get_queryset], [QuerySet.filter]) are modelled after their
      documented behaviour, driven by the options the module declares
      ([unique=True], [unique_together], [on_delete=CASCADE], ...).

    The database is the one a Django project has by default, SQLite, in
    autocommit mode: a primary key comes from the table's AUTOINCREMENT
    sequence (keys start at 1 and the key of a deleted row is not given
    again), a statement that breaks a constraint raises [IntegrityError]
    at once, and the declared length of a text column ([max_length]) is
    not checked by the backend, so it is no reason for [save] to fail.
    The number of digits of [price] ([max_digits]) is checked by the
    framework itself, before the statement is sent.  Text fields hold
    strings, and [image] the name of a file that is already stored.

    Left out, because no property below reads them: the indexes
    ([db_index], [index_together]), the verbose names, and the two
    [get_absolute_url] methods, which only hand the slug to [reverse]. *)

From Stdlib Require Import NArith Ascii String List Lia Sorted.
From stdpp Require Import base decidable option numbers list gmap sets fin_maps.

Set Default Proof Using "Type".
Set Warnings "-clear-no-such-hyp".

(** ** Python values: strings, exceptions, the state and exception monad *)

(** A Python [str]: a sequence of code points. *)
Abbreviation pystr := (list N).

Definition pystr_of_string (s : string) : pystr :=
  map N_of_ascii (list_ascii_of_string s).

(** [sep.join(parts)]. *)
Fixpoint join (sep : pystr) (parts : list pystr) : pystr :=
  match parts with
  | [] => []
  | [p] => p
  | p :: rest => p ++ sep ++ join sep rest
  end.

(** The exceptions that can escape the modelled calls. *)
Inductive exn : Set :=
| IndexError
| IntegrityError
| DoesNotExist
| ValueError
| InvalidOperation.

Inductive result (A : Type) : Type :=
| Ok (a : A)
| Raise (e : exn).
Arguments Ok {A} a.
Arguments Raise {A} e.

(** A computation over a mutable state [S]: it ends with a value or an
    exception, and the state it leaves behind is kept in both cases (Python
    does not roll back assignments when an exception propagates). *)
Definition Py (S A : Type) : Type := S -> result A * S.

Definition ret {S A} (a : A) : Py S A := fun s => (Ok a, s).

Definition bind {S A B} (m : Py S A) (k : A -> Py S B) : Py S B :=
  fun s => match m s with
           | (Ok a, s') => k a s'
           | (Raise e, s') => (Raise e, s')
           end.

Definition raise {S A} (e : exn) : Py S A := fun s => (Raise e, s).
Definition get {S} : Py S S := fun s => (Ok s, s).
Definition put {S} (s : S) : Py S unit := fun _ => (Ok tt, s).

Declare Scope py_scope.
Delimit Scope py_scope with py.
Notation "'let*' x ':=' m 'in' k" := (bind m (fun x => k))
  (at level 10, x pattern, m at level 100, k at level 200) : py_scope.
Notation "m1 ';;;' m2" := (bind m1 (fun _ => m2))
  (at level 100, m2 at level 200, right associativity) : py_scope.
Local Open Scope py_scope.

(** Run a computation on a component of a larger state. *)
Definition zoom {S T A} (proj : S -> T) (inj : T -> S -> S) (m : Py T A) : Py S A :=
  fun s => let '(r, t') := m (proj s) in (r, inj t' s).

(** ** The [random] module *)

(** The hidden generator behind [random.choice].  The module only relies on
    [Random._randbelow n], which returns an integer in [range(n)] for
    positive [n] and advances the generator.  The Mersenne Twister itself is
    not part of the program, so the generator is an interface. *)
Class RandomGen : Type := {
  rng : Type;
  randbelow : rng -> nat -> nat * rng;
  randbelow_lt : forall g n, 0 < n -> (randbelow g n).1 < n
}.

(** A concrete generator, used to run the model: a linear congruential
    generator on 31 bits whose draw is the high half of the state. *)
Definition lcg_next (s : N) : N := ((s * 1103515245 + 12345) mod 2147483648)%N.

Definition lcg_randbelow (s : N) (n : nat) : nat * N :=
  (N.to_nat (lcg_next s / 65536) mod n, lcg_next s).

Definition lcg : RandomGen :=
  {| rng := N;
     randbelow := lcg_randbelow;
     randbelow_lt := fun s n Hn =>
       Nat.mod_upper_bound (N.to_nat (lcg_next s / 65536)) n
         (proj2 (Nat.neq_0_lt_0 n) Hn) |}.

(** [string.ascii_lowercase] and [string.digits]. *)
Definition ascii_lowercase : pystr :=
  Eval cbv in pystr_of_string "abcdefghijklmnopqrstuvwxyz".
Definition digits : pystr := Eval cbv in pystr_of_string "0123456789".

Definition is_ascii_lower (c : N) : bool := ((97 <=? c) && (c <=? 122))%N.
Definition is_digit (c : N) : bool := ((48 <=? c) && (c <=? 57))%N.

Section Random.
Context {R : RandomGen}.

(** [random.choice(seq)]:
    [if not len(seq): raise IndexError],
    then [seq[self._randbelow(len(seq))]], a one-character [str]. *)
Definition choice (seq : pystr) : Py rng pystr :=
  fun g =>
    match seq with
    | [] => (Raise IndexError, g)
    | _ :: _ =>
        let '(i, g') := randbelow g (length seq) in
        match seq !! i with
        | Some c => (Ok [c], g')
        | None => (Raise IndexError, g')
        end
    end.

(** The generator expression [f() for _ in range(n)], evaluated left to
    right into the list that [join] consumes. *)
Fixpoint for_range {S A} (n : nat) (body : Py S A) : Py S (list A) :=
  match n with
  | 0 => ret []
  | S n' => let* x := body in let* xs := for_range n' body in ret (x :: xs)
  end.

(** [rand_slug()]:
    [''.join(random.choice(string.ascii_lowercase + string.digits)
             for _ in range(3))]. *)
Definition rand_slug : Py rng pystr :=
  let* chars := for_range 3 (choice (ascii_lowercase ++ digits)) in
  ret (join [] chars).

(** The generator state after the three draws of one [rand_slug] call. *)
Definition three_draws (g : rng) : rng :=
  let n := length (ascii_lowercase ++ digits) in
  (randbelow (randbelow (randbelow g n).2 n).2 n).2.
End Random.

(** ** [django.utils.text.slugify]

    The framework function, with [allow_unicode=False] (Django 3.2 to 5.x):
<<
    value = unicodedata.normalize("NFKD", value)
                       .encode("ascii", "ignore").decode("ascii")
    value = re.sub(r"[^\w\s-]", "", value.lower())
    return re.sub(r"[-\s]+", "-", value).strip("-_")
>>
    The compatibility decomposition acts on one code point at a time and the
    canonical reordering that follows it only moves combining marks, none of
    which is ASCII; so the ASCII text that survives [encode] is the
    concatenation, code point by code point, of the ASCII part of each
    decomposition.  An ASCII code point decomposes to itself.  The Unicode
    table of the other code points is a parameter, [decomp]. *)

Definition is_ascii (c : N) : bool := (c <? 128)%N.
Definition is_ascii_upper (c : N) : bool := ((65 <=? c) && (c <=? 90))%N.

(** [\s] on ASCII text: TAB, LF, VT, FF, CR, FS, GS, RS, US and the space. *)
Definition is_space (c : N) : bool :=
  (((9 <=? c) && (c <=? 13)) || ((28 <=? c) && (c <=? 31)) || (c =? 32))%N.

(** [\w] on ASCII text: letters, digits and the underscore. *)
Definition is_word (c : N) : bool :=
  is_ascii_lower c || is_ascii_upper c || is_digit c || (c =? 95)%N.

Definition hyphen : N := 45%N.
Definition underscore : N := 95%N.

(** [unicodedata.normalize("NFKD", v).encode("ascii", "ignore").decode("ascii")]. *)
Definition nfkd_ascii (decomp : N -> pystr) (value : pystr) : pystr :=
  flat_map (fun c => if is_ascii c then [c] else List.filter is_ascii (decomp c))
           value.

(** [str.lower] on ASCII text. *)
Definition lower_char (c : N) : N := if is_ascii_upper c then (c + 32)%N else c.
Definition lower (value : pystr) : pystr := map lower_char value.

(** [re.sub(r"[^\w\s-]", "", value)]: drop what is neither a word
    character, nor white space, nor a hyphen. *)
Definition keep_char (c : N) : bool := is_word c || is_space c || (c =? hyphen)%N.
Definition drop_other (value : pystr) : pystr := List.filter keep_char value.

(** [re.sub(r"[-\s]+", "-", value)]: every maximal run of hyphens and white
    space becomes one hyphen.  [in_run] says that the previous character was
    part of a run, whose hyphen has been emitted already. *)
Definition is_dash_or_space (c : N) : bool := (c =? hyphen)%N || is_space c.

Fixpoint squeeze_from (in_run : bool) (value : pystr) : pystr :=
  match value with
  | [] => []
  | c :: rest =>
      if is_dash_or_space c
      then (if in_run then squeeze_from true rest else hyphen :: squeeze_from true rest)
      else c :: squeeze_from false rest
  end.
Definition squeeze (value : pystr) : pystr := squeeze_from false value.

(** [value.strip("-_")], as [lstrip] after [rstrip]. *)
Definition is_strip_char (c : N) : bool := (c =? hyphen)%N || (c =? underscore)%N.

Fixpoint lstrip (value : pystr) : pystr :=
  match value with
  | [] => []
  | c :: rest => if is_strip_char c then lstrip rest else value
  end.
Definition rstrip (value : pystr) : pystr := rev (lstrip (rev value)).
Definition strip (value : pystr) : pystr := lstrip (rstrip value).

Definition slugify (decomp : N -> pystr) (value : pystr) : pystr :=
  let value := nfkd_ascii decomp value in
  let value := drop_other (lower value) in
  strip (squeeze value).

(** A stand-in table that maps every non-ASCII code point to nothing; it is
    used only to run the model on ASCII text, where the table is not read. *)
Definition no_decomp : N -> pystr := fun _ => [].

(** ** The database rows

    A model instance and a table row have the same fields.  The implicit
    [AutoField] primary key [id] is [None] until the first insert; a foreign
    key holds the key of the row it refers to ([parent_id], [category_id]);
    a [DateTimeField] holds a time stamp, or [None] before it is set. *)

Record Category : Type := {
  c_id : option nat;
  c_name : pystr;               (* CharField(max_length=250, db_index=True) *)
  c_parent : option nat;        (* ForeignKey('self', on_delete=CASCADE, null=True) *)
  c_slug : pystr;               (* SlugField(max_length=250, unique=True) *)
  c_created_at : option N       (* DateTimeField(auto_now_add=True) *)
}.

Record Product : Type := {
  p_id : option nat;
  p_category : option nat;      (* ForeignKey(Category, on_delete=CASCADE) *)
  p_title : pystr;
  p_slug : pystr;               (* SlugField(max_length=250), not unique *)
  p_description : pystr;
  p_brand : pystr;
  p_price : Z;                  (* DecimalField(decimal_places=2), in hundredths *)
  p_image : pystr;
  p_available : bool;           (* BooleanField(default=True) *)
  p_created_at : option N;      (* auto_now_add=True *)
  p_updated_at : option N       (* auto_now=True *)
}.

Global Instance Category_eq_dec : EqDecision Category.
Proof. solve_decision. Defined.
Global Instance Product_eq_dec : EqDecision Product.
Proof. solve_decision. Defined.

Definition set_c_id (i : option nat) (c : Category) : Category :=
  {| c_id := i; c_name := c_name c; c_parent := c_parent c;
     c_slug := c_slug c; c_created_at := c_created_at c |}.
Definition set_c_slug (s : pystr) (c : Category) : Category :=
  {| c_id := c_id c; c_name := c_name c; c_parent := c_parent c;
     c_slug := s; c_created_at := c_created_at c |}.
Definition set_c_created_at (t : option N) (c : Category) : Category :=
  {| c_id := c_id c; c_name := c_name c; c_parent := c_parent c;
     c_slug := c_slug c; c_created_at := t |}.

Definition set_p_id (i : option nat) (p : Product) : Product :=
  {| p_id := i; p_category := p_category p; p_title := p_title p;
     p_slug := p_slug p; p_description := p_description p; p_brand := p_brand p;
     p_price := p_price p; p_image := p_image p; p_available := p_available p;
     p_created_at := p_created_at p; p_updated_at := p_updated_at p |}.
Definition set_p_created_at (t : option N) (p : Product) : Product :=
  {| p_id := p_id p; p_category := p_category p; p_title := p_title p;
     p_slug := p_slug p; p_description := p_description p; p_brand := p_brand p;
     p_price := p_price p; p_image := p_image p; p_available := p_available p;
     p_created_at := t; p_updated_at := p_updated_at p |}.
Definition set_p_updated_at (t : option N) (p : Product) : Product :=
  {| p_id := p_id p; p_category := p_category p; p_title := p_title p;
     p_slug := p_slug p; p_description := p_description p; p_brand := p_brand p;
     p_price := p_price p; p_image := p_image p; p_available := p_available p;
     p_created_at := p_created_at p; p_updated_at := t |}.

(** ** Constraints declared by the models

    A column value as the database sees it. *)
Inductive sqlval : Type :=
| SqlNull
| SqlInt (n : nat)
| SqlText (s : pystr).

Global Instance sqlval_eq_dec : EqDecision sqlval.
Proof. solve_decision. Defined.

Inductive Category_field : Set := F_name | F_parent | F_slug.

Definition Category_column (f : Category_field) (c : Category) : sqlval :=
  match f with
  | F_name => SqlText (c_name c)
  | F_parent => match c_parent c with Some p => SqlInt p | None => SqlNull end
  | F_slug => SqlText (c_slug c)
  end.

(** The uniqueness constraints of [Category]: [unique=True] on [slug] and
    [Meta.unique_together = ('slug', 'parent')]. *)
Definition Category_unique : list (list Category_field) :=
  [ [F_slug]; [F_slug; F_parent] ].

(** Two rows clash on a uniqueness constraint when they agree on all its
    columns and none of these is NULL: SQL keeps NULLs distinct. *)
Definition same_key (cols : list Category_field) (r r' : Category) : bool :=
  forallb (fun f =>
             match Category_column f r, Category_column f r' with
             | SqlNull, _ | _, SqlNull => false
             | a, b => bool_decide (a = b)
             end) cols.

Definition unique_ok (constraints : list (list Category_field))
    (others : gmap nat Category) (r : Category) : bool :=
  forallb (fun cols =>
             bool_decide (map_Forall (fun _ r' => same_key cols r r' = false) others))
          constraints.

(** A foreign key is NULL or the key of a row of the referenced table. *)
Definition fk_ok {A} (table : gmap nat A) (ref : option nat) : bool :=
  match ref with
  | None => true
  | Some k => bool_decide (is_Some (table !! k))
  end.

(** Writing row [r] under key [i] of the Category table (INSERT or UPDATE):
    the statement is refused when the row would break a uniqueness
    constraint against another row, leave a NOT NULL column empty, or
    refer to a parent that does not exist. *)
Definition write_Category (i : nat) (r : Category)
    (table : gmap nat Category) : option (gmap nat Category) :=
  let r := set_c_id (Some i) r in
  let table' := <[i := r]> table in
  if unique_ok Category_unique (delete i table) r
     && bool_decide (is_Some (c_created_at r))
     && fk_ok table' (c_parent r)
  then Some table' else None.

(** Writing a Product row: [category] is a NOT NULL foreign key, and the
    two time stamps are NOT NULL.  The statement does not look at the
    length of the text columns or at the digits of [price]; the digits are
    checked before, by [save] (see [price_fits]). *)
Definition write_Product (i : nat) (r : Product) (categories : gmap nat Category)
    (table : gmap nat Product) : option (gmap nat Product) :=
  let r := set_p_id (Some i) r in
  if bool_decide (is_Some (p_category r))
     && fk_ok categories (p_category r)
     && bool_decide (is_Some (p_created_at r))
     && bool_decide (is_Some (p_updated_at r))
  then Some (<[i := r]> table) else None.

(** ** The program state *)

Inductive outcome (A : Type) : Type :=
| Returns (a : A)
| Raises (e : exn)
| OutOfFuel.
Arguments Returns {A} a.
Arguments Raises {A} e.
Arguments OutOfFuel {A}.

(** A lazy [QuerySet] over Product: the [WHERE] conditions collected so far.
    It reads the table only when it is evaluated. *)
Record QuerySet : Type := { qs_where : list (Product -> bool) }.

Definition QuerySet_filter (cond : Product -> bool) (qs : QuerySet) : QuerySet :=
  {| qs_where := qs_where qs ++ [cond] |}.

(** Stable insertion sort, for [Meta.ordering]. *)
Fixpoint insert_by {A} (le : A -> A -> bool) (x : A) (l : list A) : list A :=
  match l with
  | [] => [x]
  | y :: l' => if le x y then x :: l else y :: insert_by le x l'
  end.
Definition sort_by {A} (le : A -> A -> bool) (l : list A) : list A :=
  foldr (insert_by le) [] l.

(** The separator of [Category.__str__] and the infix of [Category.save]. *)
Definition arrow : pystr := Eval cbv in pystr_of_string " -> ".
Definition pickBetter : pystr := Eval cbv in pystr_of_string "-pickBetter".

(** The truth value of a [str], as in [if not self.slug]: the empty string
    is false.  The field is a [SlugField], whose value on a new instance is
    the empty string when no slug is given. *)
Definition truthy (s : pystr) : bool := match s with [] => false | _ :: _ => true end.

Definition refers_to (keys : gset nat) (ref : option nat) : bool :=
  match ref with
  | Some k => bool_decide (k ∈ keys)
  | None => false
  end.

(** The rows of the Category table whose [parent] is one of [keys]: what the
    reverse relation [children] yields for these keys. *)
Definition children_of (table : gmap nat Category) (keys : gset nat) : gset nat :=
  dom (filter (fun kr => refers_to keys (c_parent kr.2) = true) table).

(** Django's deletion collector, restricted to the self-referential CASCADE
    relation of Category: starting from the row to delete, collect the rows
    that refer to a collected row; rows met before are not visited again. *)
Fixpoint collect (fuel : nat) (table : gmap nat Category)
    (seen new : gset nat) : gset nat :=
  match fuel with
  | 0 => seen
  | S fuel' =>
      let fresh_keys := new ∖ seen in
      if decide (fresh_keys = ∅) then seen
      else collect fuel' table (seen ∪ fresh_keys) (children_of table fresh_keys)
  end.

(** Every productive round collects a new key, a key of the table or the
    start key; so [size table + 2] rounds are enough. *)
Definition cascade (table : gmap nat Category) (i : nat) : gset nat :=
  collect (size table + 2) table ∅ {[i]}.

(** [k.parent] through the foreign key descriptor: [None] for a NULL key,
    otherwise the row with that key, fetched from the table. *)
Definition get_parent (table : gmap nat Category) (k : Category)
    : result (option Category) :=
  match c_parent k with
  | None => Ok None
  | Some p =>
      match table !! p with
      | Some row => Ok (Some row)
      | None => Raise DoesNotExist
      end
  end.

(** The loop of [Category.__str__]:
<<
    while k is not None:
        full_path.append(k.name)
        k = k.parent
    return ' -> '.join(full_path[::-1])
>>
    One unit of fuel pays for one iteration. *)
Fixpoint Category_str_loop (fuel : nat) (table : gmap nat Category)
    (full_path : list pystr) (k : option Category) : outcome pystr :=
  match k with
  | None => Returns (join arrow (rev full_path))
  | Some kc =>
      match fuel with
      | 0 => OutOfFuel
      | S fuel' =>
          let full_path := full_path ++ [c_name kc] in
          match get_parent table kc with
          | Ok k' => Category_str_loop fuel' table full_path k'
          | Raise e => Raises e
          end
      end
  end.

(** [Category.__str__]: [full_path = [self.name]; k = self.parent], then the loop. *)
Definition Category_str (fuel : nat) (table : gmap nat Category)
    (self : Category) : outcome pystr :=
  match get_parent table self with
  | Ok k => Category_str_loop fuel table [c_name self] k
  | Raise e => Raises e
  end.

(** [Product.__str__]. *)
Definition Product_str (self : Product) : pystr := p_title self.

(** The key an [AutoField] gets on INSERT, as SQLite's AUTOINCREMENT gives
    it: one more than the largest key that was ever in the table, which the
    sequence holds, and than the largest key in it now.  The first key is
    1, and the key of a deleted row is not given again. *)
Definition next_key {A} (seq : nat) (table : gmap nat A) : nat :=
  S (seq `max` max_list (elements (dom table))).

(** [DecimalField(max_digits=10, decimal_places=2)]: the price, in
    hundredths, has at most ten digits. *)
Definition price_fits (p : Product) : bool :=
  (Z.abs (p_price p) <? 10 ^ 10)%Z.

Section Shop.
Context {R : RandomGen}.

(** The Unicode decomposition table read by [slugify] and the collation
    that the database applies to [ORDER BY title]. *)
Variable decomp : N -> pystr.
Variable collate_le : pystr -> pystr -> bool.

(** What the module can read and change: the generator of [random], the
    clock, the two tables, keyed by primary key, and the key sequence of
    each table.  [w_latency] is the time that passes between one reading of
    the clock and the next. *)
Record World : Type := {
  w_random : rng;
  w_now : N;
  w_latency : N;
  w_categories : gmap nat Category;
  w_products : gmap nat Product;
  w_category_seq : nat;
  w_product_seq : nat
}.

Definition set_w_random (g : rng) (w : World) : World :=
  {| w_random := g; w_now := w_now w; w_latency := w_latency w;
     w_categories := w_categories w; w_products := w_products w;
     w_category_seq := w_category_seq w; w_product_seq := w_product_seq w |}.
Definition set_w_categories (t : gmap nat Category) (w : World) : World :=
  {| w_random := w_random w; w_now := w_now w; w_latency := w_latency w;
     w_categories := t; w_products := w_products w;
     w_category_seq := w_category_seq w; w_product_seq := w_product_seq w |}.
Definition set_w_products (t : gmap nat Product) (w : World) : World :=
  {| w_random := w_random w; w_now := w_now w; w_latency := w_latency w;
     w_categories := w_categories w; w_products := t;
     w_category_seq := w_category_seq w; w_product_seq := w_product_seq w |}.
Definition set_w_now (t : N) (w : World) : World :=
  {| w_random := w_random w; w_now := t; w_latency := w_latency w;
     w_categories := w_categories w; w_products := w_products w;
     w_category_seq := w_category_seq w; w_product_seq := w_product_seq w |}.
Definition set_w_latency (d : N) (w : World) : World :=
  {| w_random := w_random w; w_now := w_now w; w_latency := d;
     w_categories := w_categories w; w_products := w_products w;
     w_category_seq := w_category_seq w; w_product_seq := w_product_seq w |}.
Definition set_w_category_seq (n : nat) (w : World) : World :=
  {| w_random := w_random w; w_now := w_now w; w_latency := w_latency w;
     w_categories := w_categories w; w_products := w_products w;
     w_category_seq := n; w_product_seq := w_product_seq w |}.
Definition set_w_product_seq (n : nat) (w : World) : World :=
  {| w_random := w_random w; w_now := w_now w; w_latency := w_latency w;
     w_categories := w_categories w; w_products := w_products w;
     w_category_seq := w_category_seq w; w_product_seq := n |}.

(** [timezone.now()]: the time on the clock, which then moves on. *)
Definition timezone_now (w : World) : N * World :=
  (w_now w, set_w_now (w_now w + w_latency w)%N w).

(** A call of a [random] function from a method: it touches the generator
    and nothing else, neither the receiver nor the tables. *)
Definition with_random {Self A} (m : Py rng A) : Py (Self * World) A :=
  zoom (fun s => w_random s.2) (fun g s => (s.1, set_w_random g s.2)) m.

(** Reading and assigning the receiver. *)
Definition get_self {Self} : Py (Self * World) Self := fun s => (Ok s.1, s).
Definition set_self {Self} (self : Self) : Py (Self * World) unit :=
  fun s => (Ok tt, (self, s.2)).

(** [rand_slug] as a step of the whole program state. *)
Definition rand_slug_in_world : Py World pystr :=
  zoom w_random set_w_random rand_slug.

(** *** [Model.save] for Category

    With a key that is the key of a row, [save] is an UPDATE.  Otherwise
    it is an INSERT, under the given key or the next key of the sequence;
    [auto_now_add] then reads the clock for [created_at] first, and an
    accepted INSERT moves the sequence up to the key.  A refused statement
    raises [IntegrityError] and leaves the table and the sequence as they
    were.  None of the values of a Category can fail to be prepared, and
    the backend does not check [max_length]. *)
Definition Model_save_Category : Py (Category * World) unit :=
  fun '(self, w) =>
    let table := w_categories w in
    let is_update :=
      match c_id self with
      | Some i => bool_decide (is_Some (table !! i))
      | None => false
      end in
    let '(self, w) :=
      if is_update then (self, w)
      else let '(t, w) := timezone_now w in (set_c_created_at (Some t) self, w) in
    let i := match c_id self with
             | Some i => i
             | None => next_key (w_category_seq w) table
             end in
    match write_Category i self table with
    | Some table' =>
        let seq := if is_update then w_category_seq w
                   else w_category_seq w `max` i in
        (Ok tt, (set_c_id (Some i) self,
                 set_w_category_seq seq (set_w_categories table' w)))
    | None => (Raise IntegrityError, (self, w))
    end.

(** *** [Category.save]
<<
    if not self.slug:
        self.slug = slugify(rand_slug() + '-pickBetter' + self.name)
    super(Category, self).save( *args, **kwargs )
>> *)
Definition Category_save : Py (Category * World) unit :=
  let* self := get_self in
  (if truthy (c_slug self) then ret tt
   else
     let* token := with_random rand_slug in
     let* self := get_self in
     set_self (set_c_slug (slugify decomp (token ++ pickBetter ++ c_name self)) self))
  ;;; Model_save_Category.

(** *** [Model.save] for Product: no override in the module.

    The values of a row are prepared field by field, in the order of the
    declarations: [price] comes before the two time stamps, and a price
    that needs more than [max_digits=10] digits makes the preparation raise
    [decimal.InvalidOperation].  [auto_now_add] and [auto_now] read the
    clock, each for itself. *)
Definition INSERT_Product (k : nat) : Py (Product * World) unit :=
  fun '(self, w) =>
    if price_fits self then
      let '(t, w) := timezone_now w in
      let self := set_p_created_at (Some t) self in
      let '(t, w) := timezone_now w in
      let self := set_p_updated_at (Some t) self in
      match write_Product k self (w_categories w) (w_products w) with
      | Some table' =>
          (Ok tt, (set_p_id (Some k) self,
                   set_w_product_seq (w_product_seq w `max` k)
                     (set_w_products table' w)))
      | None => (Raise IntegrityError, (self, w))
      end
    else (Raise InvalidOperation, (self, w)).

(** Without key, [save] is an INSERT under the next key of the sequence.
    With a key it first tries an UPDATE, for which [auto_now] stamps
    [updated_at] before the values are prepared; when no row has the key,
    the UPDATE changes nothing and an INSERT under that key follows. *)
Definition Model_save_Product : Py (Product * World) unit :=
  fun '(self, w) =>
    match p_id self with
    | None => INSERT_Product (next_key (w_product_seq w) (w_products w)) (self, w)
    | Some k =>
        let '(t, w) := timezone_now w in
        let self := set_p_updated_at (Some t) self in
        if price_fits self then
          if bool_decide (is_Some (w_products w !! k)) then
            match write_Product k self (w_categories w) (w_products w) with
            | Some table' => (Ok tt, (set_p_id (Some k) self, set_w_products table' w))
            | None => (Raise IntegrityError, (self, w))
            end
          else INSERT_Product k (self, w)
        else (Raise InvalidOperation, (self, w))
    end.

(** *** [Model.delete]

    [Category.parent] and [Product.category] are declared with
    [on_delete=CASCADE]: the collector gathers the row, every Category
    that refers to a gathered Category, and every Product that refers to
    one; all of them are deleted.  The instance loses its key. *)
Definition Category_delete : Py (Category * World) unit :=
  fun '(self, w) =>
    match c_id self with
    | None => (Raise ValueError, (self, w))
    | Some i =>
        let doomed := cascade (w_categories w) i in
        let categories := filter (fun kr => kr.1 ∉ doomed) (w_categories w) in
        let products :=
          filter (fun kr => refers_to doomed (p_category kr.2) = false) (w_products w) in
        (Ok tt, (set_c_id None self,
                 set_w_products products (set_w_categories categories w)))
    end.

Definition Product_delete : Py (Product * World) unit :=
  fun '(self, w) =>
    match p_id self with
    | None => (Raise ValueError, (self, w))
    | Some i =>
        (Ok tt, (set_p_id None self, set_w_products (delete i (w_products w)) w))
    end.

(** *** Managers and query sets *)

(** [models.Manager.get_queryset]: all the rows of the model. *)
Definition Manager_get_queryset : QuerySet := {| qs_where := [] |}.

(** [ProductManager.get_queryset]:
    [super().get_queryset().filter(available=True)]. *)
Definition ProductManager_get_queryset : QuerySet :=
  QuerySet_filter (fun p => Bool.eqb (p_available p) true) Manager_get_queryset.

(** Evaluating a query set: the rows that satisfy every condition, in the
    order of [Product.Meta.ordering = ['title']], which the proxy shares. *)
Definition evaluate (qs : QuerySet) (w : World) : list Product :=
  sort_by (fun p q => collate_le (p_title p) (p_title q))
          (filter (fun p => forallb (fun cond => cond p) (qs_where qs) = true)
                  (map_to_list (w_products w)).*2).

(** [Product.objects.all()] and [ProductProxy.objects.all()]. *)
Definition Product_objects (w : World) : list Product :=
  evaluate Manager_get_queryset w.
Definition ProductProxy_objects (w : World) : list Product :=
  evaluate ProductManager_get_queryset w.

(** *** Histories: the operations that reach the tables, and the two ways
    time passes: [Tick] between operations, [Latency] between the readings
    of the clock within one. *)
Inductive op : Type :=
| SaveCategory (c : Category)
| DeleteCategory (c : Category)
| SaveProduct (p : Product)
| DeleteProduct (p : Product)
| Tick (dt : N)
| Latency (d : N).

Definition run_op (o : op) (w : World) : World :=
  match o with
  | SaveCategory c => (Category_save (c, w)).2.2
  | DeleteCategory c => (Category_delete (c, w)).2.2
  | SaveProduct p => (Model_save_Product (p, w)).2.2
  | DeleteProduct p => (Product_delete (p, w)).2.2
  | Tick dt => set_w_now (w_now w + dt)%N w
  | Latency d => set_w_latency d w
  end.

Definition run_ops (ops : list op) (w : World) : World :=
  foldl (fun w o => run_op o w) w ops.

(** The state before anything was saved: empty tables, sequences that have
    given no key yet, and a clock that does not move between two readings
    until [Latency] says otherwise. *)
Definition empty_world (g : rng) (now : N) : World :=
  {| w_random := g; w_now := now; w_latency := 0;
     w_categories := ∅; w_products := ∅;
     w_category_seq := 0; w_product_seq := 0 |}.
End Shop.

(** ** Vocabulary of the properties, and example data *)

(** The characters a token is made of. *)
Definition token_char (c : N) : Prop := is_ascii_lower c || is_digit c = true.

(** The text of a name once decomposed, lowered, filtered and squeezed:
    what [slugify] strips at both ends. *)
Definition cleaned (decomp : N -> pystr) (value : pystr) : pystr :=
  squeeze (drop_other (lower (nfkd_ascii decomp value))).

(** The infix as it comes out of [slugify]. *)
Definition pickbetter : pystr := Eval cbv in pystr_of_string "-pickbetter".

(** The reading under which a Category saved without a slug gets the token,
    one fixed separator and [slugify(name)], one after the other. *)
Definition slug_is_token_separator_slugified_name
    (R : RandomGen) (decomp : N -> pystr) : Prop :=
  exists separator : pystr,
    forall (self : Category) (w : World),
      c_slug self = [] ->
      exists token : pystr,
        (rand_slug (w_random w)).1 = Ok token /\
        c_slug (Category_save decomp (self, w)).2.1
        = token ++ separator ++ slugify decomp (c_name self).

(** A call has no side effect when it leaves the state it ran in as it was. *)
Definition no_side_effect {S A : Type} (m : Py S A) : Prop :=
  forall s, (m s).2 = s.

(** An unsaved Category, as [Category(name=..., parent_id=..., slug=...)]
    builds it. *)
Definition new_Category (name : string) (parent : option nat) (slug : string) : Category :=
  {| c_id := None; c_name := pystr_of_string name; c_parent := parent;
     c_slug := pystr_of_string slug; c_created_at := None |}.

(** An empty database, the example generator seeded with 42, the clock at 1000. *)
Definition world0 : @World lcg := @empty_world lcg 42%N 1000%N.

(** At most one stored Category per slug. *)
Definition slug_unique (table : gmap nat Category) : Prop :=
  forall i j r1 r2,
    table !! i = Some r1 -> table !! j = Some r2 ->
    c_slug r1 = c_slug r2 -> i = j.

(** At most one stored Category per pair of slug and parent. *)
Definition slug_parent_unique (table : gmap nat Category) : Prop :=
  forall i j r1 r2,
    table !! i = Some r1 -> table !! j = Some r2 ->
    c_slug r1 = c_slug r2 -> c_parent r1 = c_parent r2 -> i = j.

(** [ancestry table c l]: [l] lists [c] and then its ancestors in the table,
    parent after child, up to a Category without parent. *)
Inductive ancestry (table : gmap nat Category) : Category -> list Category -> Prop :=
| ancestry_root (c : Category) :
    c_parent c = None -> ancestry table c [c]
| ancestry_step (c k : Category) (p : nat) (l : list Category) :
    c_parent c = Some p -> table !! p = Some k -> ancestry table k l ->
    ancestry table c (c :: l).

(** [descendant table i j]: the row with key [j] descends from key [i]; its
    parent is [i] or a descendant of [i]. *)
Inductive descendant (table : gmap nat Category) (i : nat) : nat -> Prop :=
| descendant_child (j : nat) (r : Category) :
    table !! j = Some r -> c_parent r = Some i -> descendant table i j
| descendant_step (j k : nat) (r : Category) :
    table !! j = Some r -> c_parent r = Some k -> descendant table i k ->
    descendant table i j.

(** Every foreign key of a stored row is the key of a stored Category. *)
Definition referential_integrity `{R : RandomGen} (w : World) : Prop :=
  (forall j r p,
     w_categories w !! j = Some r -> c_parent r = Some p ->
     is_Some (w_categories w !! p)) /\
  (forall k q,
     w_products w !! k = Some q ->
     exists c, p_category q = Some c /\ is_Some (w_categories w !! c)).

(** Code point order, as an example collation. *)
Fixpoint lex_le (a b : pystr) : bool :=
  match a, b with
  | [], _ => true
  | _ :: _, [] => false
  | x :: a', y :: b' =>
      if (x <? y)%N then true else if (y <? x)%N then false else lex_le a' b'
  end.

(** A small catalogue: "Phones" (key 1) with the children "Android" (key 2)
    and "Apple" (key 3), and "Laptops" (key 4) with the child "Apple"
    (key 5); slugs are given explicitly. *)
Definition catalogue_history : list op :=
  [ SaveCategory (new_Category "Phones" None "phones");
    SaveCategory (new_Category "Android" (Some 1) "android");
    SaveCategory (new_Category "Apple" (Some 1) "apple-phones");
    SaveCategory (new_Category "Laptops" None "laptops");
    SaveCategory (new_Category "Apple" (Some 4) "apple-laptops") ].

Definition catalogue : @World lcg :=
  @run_ops lcg no_decomp catalogue_history world0.

(** The row that a first save at time 1000 stores under key [i]. *)
Definition stored (i : nat) (c : Category) : Category :=
  set_c_id (Some i) (set_c_created_at (Some 1000%N) c).

(** The catalogue with two products: a phone under "Android" (key 1) and a
    laptop under "Apple" of "Laptops" (key 2). *)
Definition new_Product (title : string) (category : option nat) (available : bool)
    : Product :=
  {| p_id := None; p_category := category; p_title := pystr_of_string title;
     p_slug := pystr_of_string title; p_description := []; p_brand := [];
     p_price := 9999; p_image := []; p_available := available;
     p_created_at := None; p_updated_at := None |}.

Definition shop_history : list op :=
  catalogue_history ++
  [ SaveProduct (new_Product "pixel" (Some 2) true);
    SaveProduct (new_Product "macbook" (Some 5) false) ].

Definition shop : @World lcg := @run_ops lcg no_decomp shop_history world0.

(** ** Further vocabulary *)

Definition set_c_parent (p : option nat) (c : Category) : Category :=
  {| c_id := c_id c; c_name := c_name c; c_parent := p;
     c_slug := c_slug c; c_created_at := c_created_at c |}.

(** The characters of a slug: lowercase ASCII letters, digits, the hyphen
    and the underscore. *)
Definition slug_char (c : N) : bool :=
  is_ascii_lower c || is_digit c || (c =? hyphen)%N || (c =? underscore)%N.

(** A generator that always draws 0: every token it gives is "aaa". *)
Definition constant_gen : RandomGen :=
  {| rng := unit;
     randbelow := fun _ _ => (0, tt);
     randbelow_lt := fun _ n Hn => Hn |}.

(** A chain of [.filter(cond)] calls on a query set. *)
Definition QuerySet_filters (conds : list (Product -> bool)) (qs : QuerySet) : QuerySet :=
  foldl (fun qs cond => QuerySet_filter cond qs) qs conds.

(** Every stored row carries the key it is stored under, and its time
    stamps are set. *)
Definition rows_keyed `{R : RandomGen} (w : World) : Prop :=
  (forall i r, w_categories w !! i = Some r ->
               c_id r = Some i /\ is_Some (c_created_at r)) /\
  (forall k q, w_products w !! k = Some q ->
               p_id q = Some k /\ is_Some (p_created_at q) /\
               is_Some (p_updated_at q)).

(** Every stored Category has a slug. *)
Definition slugs_nonempty (table : gmap nat Category) : Prop :=
  forall i r, table !! i = Some r -> c_slug r <> [].

(** * Properties *)

(** ** The token generator *)

Lemma alphabet_token_chars : Forall token_char (ascii_lowercase ++ digits).
Proof. repeat constructor. Qed.

Section RandomFacts.
Context {R : RandomGen}.

Lemma choice_total (seq : pystr) (g : rng) :
  seq <> [] ->
  exists c, c ∈ seq /\ choice seq g = (Ok [c], (randbelow g (length seq)).2).
Proof.
  intros Hne. unfold choice. destruct seq as [|c0 seq']; [done|].
  pose proof (randbelow_lt g (length (c0 :: seq'))) as Hlt.
  destruct (randbelow g (length (c0 :: seq'))) as [i g'] eqn:Hdraw.
  cbn [fst snd] in *.
  destruct (lookup_lt_is_Some_2 (c0 :: seq') i) as [c Hc].
  { apply Hlt. cbn. lia. }
  exists c. rewrite Hc. split; [|done].
  eapply list_elem_of_lookup_2, Hc.
Qed.

Lemma rand_slug_total (g : rng) :
  exists c1 c2 c3,
    token_char c1 /\ token_char c2 /\ token_char c3 /\
    rand_slug g = (Ok [c1; c2; c3], three_draws g).
Proof.
  pose proof alphabet_token_chars as Hall. rewrite Forall_forall in Hall.
  assert (Hne : ascii_lowercase ++ digits <> []) by done.
  destruct (choice_total _ g Hne) as (c1 & Hin1 & E1).
  destruct (choice_total _ (randbelow g (length (ascii_lowercase ++ digits))).2 Hne)
    as (c2 & Hin2 & E2).
  destruct (choice_total _
              (randbelow (randbelow g (length (ascii_lowercase ++ digits))).2
                         (length (ascii_lowercase ++ digits))).2 Hne)
    as (c3 & Hin3 & E3).
  exists c1, c2, c3. repeat split; try (apply Hall; assumption).
  unfold rand_slug, for_range, bind, ret, three_draws.
  rewrite E1, E2, E3. reflexivity.
Qed.
End RandomFacts.

(** C8. Every call of [rand_slug] returns, without raising, a string of
    exactly three characters, each a lowercase ASCII letter or a decimal
    digit. *)
Theorem rand_slug_three_token_chars `{R : RandomGen} (g : rng) :
  exists token : pystr,
    (rand_slug g).1 = Ok token /\
    length token = 3 /\
    Forall (fun c => is_ascii_lower c = true \/ is_digit c = true) token.
Proof.
  destruct (rand_slug_total g) as (c1 & c2 & c3 & H1 & H2 & H3 & E).
  exists [c1; c2; c3]. rewrite E. split; [done|]. split; [done|].
  unfold token_char in *.
  repeat apply Forall_cons_2; try apply Forall_nil_2;
    apply orb_true_iff; assumption.
Qed.

(** ** [slugify] on a string that starts with a token and the infix *)

Ltac N_cases :=
  repeat match goal with
         | |- context [(?a <=? ?b)%N] => destruct (N.leb_spec a b)
         | |- context [(?a <? ?b)%N] => destruct (N.ltb_spec a b)
         | |- context [(?a =? ?b)%N] => destruct (N.eqb_spec a b)
         | H : context [(?a <=? ?b)%N] |- _ => destruct (N.leb_spec a b)
         | H : context [(?a <? ?b)%N] |- _ => destruct (N.ltb_spec a b)
         | H : context [(?a =? ?b)%N] |- _ => destruct (N.eqb_spec a b)
         end;
  cbn in *; try discriminate; try reflexivity; try lia.

Lemma token_char_facts (c : N) :
  token_char c ->
  is_ascii c = true /\ lower_char c = c /\ keep_char c = true /\
  is_dash_or_space c = false /\ is_strip_char c = false.
Proof.
  unfold token_char, is_ascii, lower_char, keep_char, is_dash_or_space,
    is_strip_char, is_word, is_space, is_ascii_lower, is_ascii_upper,
    is_digit, hyphen, underscore.
  intros H. repeat split; N_cases.
Qed.

Lemma nfkd_ascii_app decomp (a b : pystr) :
  nfkd_ascii decomp (a ++ b) = nfkd_ascii decomp a ++ nfkd_ascii decomp b.
Proof. unfold nfkd_ascii. apply flat_map_app. Qed.

Lemma squeeze_from_keep (b : bool) (c : N) (v : pystr) :
  is_dash_or_space c = false -> squeeze_from b (c :: v) = c :: squeeze_from false v.
Proof. intros H. cbn. by rewrite H. Qed.

Lemma lstrip_app_keep (a : pystr) (c : N) (b : pystr) :
  is_strip_char c = false -> lstrip (a ++ c :: b) = lstrip a ++ c :: b.
Proof.
  intros Hc. induction a as [|h t IH]; cbn.
  - by rewrite Hc.
  - destruct (is_strip_char h); [exact IH | reflexivity].
Qed.

Lemma rstrip_app_keep (a : pystr) (c : N) (b : pystr) :
  is_strip_char c = false -> rstrip (a ++ c :: b) = a ++ c :: rstrip b.
Proof.
  intros Hc. unfold rstrip.
  rewrite rev_app_distr. cbn [rev]. rewrite <- app_assoc. cbn [app].
  rewrite (lstrip_app_keep _ _ _ Hc).
  rewrite rev_app_distr. cbn [rev]. rewrite rev_involutive.
  by rewrite <- app_assoc.
Qed.

Lemma slugify_token_infix decomp (c1 c2 c3 : N) (name : pystr) :
  token_char c1 -> token_char c2 -> token_char c3 ->
  slugify decomp ([c1; c2; c3] ++ pickBetter ++ name)
  = [c1; c2; c3] ++ pickbetter ++ rstrip (cleaned decomp name).
Proof.
  intros H1 H2 H3.
  destruct (token_char_facts c1 H1) as (A1 & L1 & K1 & D1 & S1).
  destruct (token_char_facts c2 H2) as (A2 & L2 & K2 & D2 & S2).
  destruct (token_char_facts c3 H3) as (A3 & L3 & K3 & D3 & S3).
  unfold slugify, cleaned.
  replace ([c1; c2; c3] ++ pickBetter ++ name)
    with (([c1; c2; c3] ++ pickBetter) ++ name) by (by rewrite <- app_assoc).
  rewrite nfkd_ascii_app.
  replace (nfkd_ascii decomp ([c1; c2; c3] ++ pickBetter))
    with ([c1; c2; c3] ++ pickBetter)
    by (unfold nfkd_ascii; cbn; by rewrite A1, A2, A3).
  set (v := nfkd_ascii decomp name).
  unfold lower. rewrite map_app. fold (lower v).
  replace (map lower_char ([c1; c2; c3] ++ pickBetter))
    with ([c1; c2; c3] ++ pickbetter)
    by (cbn; by rewrite L1, L2, L3).
  unfold drop_other. rewrite List.filter_app. fold (drop_other (lower v)).
  replace (List.filter keep_char ([c1; c2; c3] ++ pickbetter))
    with ([c1; c2; c3] ++ pickbetter)
    by (cbn; by rewrite K1, K2, K3).
  set (u := drop_other (lower v)).
  unfold squeeze. cbn [app pickbetter].
  rewrite !squeeze_from_keep by assumption.
  cbn [squeeze_from is_dash_or_space hyphen is_space N.eqb N.leb N.compare
       Pos.eqb Pos.compare Pos.compare_cont orb andb].
  change (squeeze_from false u) with (squeeze u).
  unfold strip.
  pose proof (rstrip_app_keep
                ([c1; c2; c3] ++ [45; 112; 105; 99; 107; 98; 101; 116; 116; 101]%N)
                114%N (squeeze u) eq_refl) as Hr.
  cbn [app] in Hr. unfold hyphen. rewrite Hr.
  cbn [app lstrip]. by rewrite S1.
Qed.

(** ** [Category.save] *)

Lemma next_key_fresh {A} (seq : nat) (table : gmap nat A) :
  table !! next_key seq table = None.
Proof.
  apply not_elem_of_dom. intros Hin.
  apply elem_of_elements, max_list_elem_of_le in Hin.
  unfold next_key in Hin. lia.
Qed.

Section ModelSaveFacts.
Context {R : RandomGen}.

(** [Model.save] for Category, as one accepted or refused write of the
    instance, stamped if the write is an INSERT. *)
Lemma Model_save_Category_unfold (self : Category) (w : World) :
  exists (self0 : Category) (w0 : World) (i seq : nat),
    (c_id self0 = c_id self /\ c_slug self0 = c_slug self /\
     c_name self0 = c_name self /\ c_parent self0 = c_parent self) /\
    (w_random w0 = w_random w /\ w_latency w0 = w_latency w /\
     w_categories w0 = w_categories w /\ w_products w0 = w_products w /\
     w_category_seq w0 = w_category_seq w /\ w_product_seq w0 = w_product_seq w /\
     (w_now w <= w_now w0)%N) /\
    (c_id self = Some i \/ c_id self = None /\ w_categories w !! i = None) /\
    Model_save_Category (self, w)
    = match write_Category i self0 (w_categories w) with
      | Some table' =>
          (Ok tt, (set_c_id (Some i) self0,
                   set_w_category_seq seq (set_w_categories table' w0)))
      | None => (Raise IntegrityError, (self0, w0))
      end.
Proof.
  unfold Model_save_Category, timezone_now.
  destruct (c_id self) as [k|] eqn:Hid.
  - destruct (bool_decide (is_Some (w_categories w !! k))).
    + exists self, w, k, (w_category_seq w). rewrite Hid.
      repeat split; try done; try lia. by left.
    + eexists (set_c_created_at _ self), (set_w_now _ w), k, _.
      cbn [c_id set_c_created_at]. rewrite Hid.
      repeat split; try done; try (cbn; lia). by left.
  - eexists (set_c_created_at _ self), (set_w_now _ w), _, _.
    cbn [c_id set_c_created_at]. rewrite Hid.
    repeat split; try done; try (cbn; lia).
    right. split; [done|]. apply next_key_fresh.
Qed.

(** [Model.save] for Product: the preparation of the price fails, or the
    instance, stamped, is written once. *)
Lemma Model_save_Product_unfold (self : Product) (w : World) :
  exists (self0 : Product) (w0 : World),
    (p_id self0 = p_id self /\ p_category self0 = p_category self /\
     p_available self0 = p_available self /\ p_title self0 = p_title self /\
     p_price self0 = p_price self) /\
    (w_random w0 = w_random w /\ w_latency w0 = w_latency w /\
     w_categories w0 = w_categories w /\ w_products w0 = w_products w /\
     w_category_seq w0 = w_category_seq w /\ w_product_seq w0 = w_product_seq w /\
     (w_now w <= w_now w0)%N) /\
    (price_fits self = false /\
     Model_save_Product (self, w) = (Raise InvalidOperation, (self0, w0))
     \/
     price_fits self = true /\
     is_Some (p_updated_at self0) /\
     exists k seq,
       (p_id self = Some k \/ p_id self = None /\ w_products w !! k = None) /\
       Model_save_Product (self, w)
       = match write_Product k self0 (w_categories w) (w_products w) with
         | Some table' =>
             (Ok tt, (set_p_id (Some k) self0,
                      set_w_product_seq seq (set_w_products table' w0)))
         | None => (Raise IntegrityError, (self0, w0))
         end).
Proof.
  unfold Model_save_Product, INSERT_Product, timezone_now, price_fits.
  cbn [p_price set_p_updated_at set_p_created_at w_now w_latency set_w_now
       w_categories w_products w_product_seq].
  set (now := w_now w). set (d := w_latency w).
  destruct (p_id self) as [k|] eqn:Hid.
  - destruct (Z.abs (p_price self) <? 10 ^ 10)%Z eqn:Hprice.
    + destruct (bool_decide (is_Some (w_products w !! k))).
      * exists (set_p_updated_at (Some now) self), (set_w_now (now + d) w).
        split; [by rewrite <- Hid|].
        split; [repeat split; cbn; try done; lia|].
        right. split; [done|]. split; [by eexists|].
        exists k, (w_product_seq w). split; [by left|].
        destruct (write_Product _ _ _ _); reflexivity.
      * exists (set_p_updated_at (Some (now + d + d))
                  (set_p_created_at (Some (now + d)) (set_p_updated_at (Some now) self)))%N,
               (set_w_now (now + d + d + d) w)%N.
        split; [by rewrite <- Hid|].
        split; [repeat split; cbn; try done; lia|].
        right. split; [done|]. split; [by eexists|].
        exists k, (w_product_seq w `max` k). split; [by left|].
        destruct (write_Product _ _ _ _); reflexivity.
    + exists (set_p_updated_at (Some now) self), (set_w_now (now + d) w).
      split; [by rewrite <- Hid|].
      split; [repeat split; cbn; try done; lia|]. by left.
  - destruct (Z.abs (p_price self) <? 10 ^ 10)%Z eqn:Hprice.
    + exists (set_p_updated_at (Some (now + d))
                (set_p_created_at (Some now) self))%N,
             (set_w_now (now + d + d) w)%N.
      split; [by rewrite <- Hid|].
      split; [repeat split; cbn; try done; lia|].
      right. split; [done|]. split; [by eexists|].
      exists (next_key (w_product_seq w) (w_products w)),
             (w_product_seq w `max` next_key (w_product_seq w) (w_products w)).
      split; [right; split; [done|apply next_key_fresh]|].
      destruct (write_Product _ _ _ _); reflexivity.
    + exists self, w.
      split; [done|]. split; [repeat split; try done; lia|]. by left.
Qed.

(** Saving a Product leaves the Category table and its sequence alone. *)
Lemma Model_save_Product_frame (self : Product) (w : World) :
  w_categories (Model_save_Product (self, w)).2.2 = w_categories w /\
  w_category_seq (Model_save_Product (self, w)).2.2 = w_category_seq w /\
  w_random (Model_save_Product (self, w)).2.2 = w_random w.
Proof.
  destruct (Model_save_Product_unfold self w)
    as (self0 & w0 & _ & (Hr & _ & Hc & _ & Hs & _) &
        [[_ ->]|(_ & _ & k & seq & _ & ->)]); [done|].
  destruct (write_Product _ _ _ _); done.
Qed.
End ModelSaveFacts.

Section SaveFacts.
Context {R : RandomGen}.
Variable decomp : N -> pystr.

Lemma Category_save_truthy (self : Category) (w : World) :
  c_slug self <> [] ->
  Category_save decomp (self, w) = Model_save_Category (self, w).
Proof.
  intros Hs. unfold Category_save, bind, get_self, ret. cbn [fst snd].
  destruct (c_slug self); [done|reflexivity].
Qed.

Lemma Category_save_falsy (self : Category) (w : World) (token : pystr) :
  c_slug self = [] ->
  rand_slug (w_random w) = (Ok token, three_draws (w_random w)) ->
  Category_save decomp (self, w)
  = Model_save_Category
      (set_c_slug (slugify decomp (token ++ pickBetter ++ c_name self)) self,
       set_w_random (three_draws (w_random w)) w).
Proof.
  intros Hs Htok.
  unfold Category_save, bind, get_self, set_self, with_random, zoom.
  cbn [fst snd]. rewrite Hs. cbn [truthy fst snd]. rewrite Htok.
  reflexivity.
Qed.

(** The framework's [save] does not assign [slug], and it does not draw
    random numbers. *)
Lemma Model_save_Category_frame (self : Category) (w : World) :
  c_slug (Model_save_Category (self, w)).2.1 = c_slug self /\
  c_name (Model_save_Category (self, w)).2.1 = c_name self /\
  w_random (Model_save_Category (self, w)).2.2 = w_random w /\
  (w_now w <= w_now (Model_save_Category (self, w)).2.2)%N /\
  w_products (Model_save_Category (self, w)).2.2 = w_products w.
Proof.
  destruct (Model_save_Category_unfold self w)
    as (self0 & w0 & i & seq & (_ & Hslug & Hname & _) &
        (Hrandom & _ & _ & Hprod & _ & _ & Hnow) & _ & ->).
  destruct (write_Category _ _ _); cbn [fst snd]; done.
Qed.

(** After a successful [save] the instance has a key and is the row
    stored under that key. *)
Lemma Model_save_Category_stored (self self' : Category) (w w' : World) :
  Model_save_Category (self, w) = (Ok tt, (self', w')) ->
  exists i, c_id self' = Some i /\ w_categories w' !! i = Some self'.
Proof.
  destruct (Model_save_Category_unfold self w)
    as (self0 & w0 & i & seq & _ & _ & _ & ->).
  destruct (write_Category i self0 (w_categories w)) as [t|] eqn:Hw; [|done].
  intros [= <- <-]. exists i. split; [done|].
  unfold write_Category in Hw. destruct (_ && _); [|done].
  injection Hw as <-. cbn. by rewrite lookup_insert_eq.
Qed.

Lemma Category_save_slug_nonempty (self : Category) (w : World) :
  c_slug (Category_save decomp (self, w)).2.1 <> [].
Proof.
  destruct (c_slug self) as [|c s] eqn:Hs.
  - destruct (rand_slug_total (w_random w)) as (c1 & c2 & c3 & H1 & H2 & H3 & E).
    rewrite (Category_save_falsy self w _ Hs E).
    destruct (Model_save_Category_frame
                (set_c_slug (slugify decomp ([c1; c2; c3] ++ pickBetter ++ c_name self)) self)
                (set_w_random (three_draws (w_random w)) w)) as (-> & _).
    cbn [c_slug set_c_slug]. by rewrite slugify_token_infix.
  - rewrite Category_save_truthy by (by rewrite Hs).
    destruct (Model_save_Category_frame self w) as (-> & _). by rewrite Hs.
Qed.
End SaveFacts.

(** C7, as stated, fails: [rand_slug] is not a pure function.  With the
    example generator, a call changes the program state (the generator of
    [random] has advanced), and a second call, made right after the first,
    returns another token. *)
Lemma rand_slug_not_pure :
  ~ no_side_effect (@rand_slug_in_world lcg) /\
  (@rand_slug_in_world lcg world0).1 = Ok (pystr_of_string "bff") /\
  (@rand_slug_in_world lcg (@rand_slug_in_world lcg world0).2).1
  = Ok (pystr_of_string "j6n").
Proof.
  split; [|split; vm_compute; reflexivity].
  intros Hpure. specialize (Hpure world0).
  apply (f_equal w_random) in Hpure. vm_compute in Hpure. discriminate.
Qed.

(** For any generator: a call that left the generator as it was would be
    followed by a call that returns the same token again. *)
Remark rand_slug_unchanged_state_repeats `{R : RandomGen} (g : rng) :
  (rand_slug g).2 = g -> (rand_slug (rand_slug g).2).1 = (rand_slug g).1.
Proof. by intros ->. Qed.

(** C7, amended.  [rand_slug] never raises, and its only effect is on the
    generator of [random]: a call returns a token that is a function of the
    generator state alone, leaves the generator advanced by three draws, and
    leaves the clock and both tables as they were. *)
Theorem rand_slug_effect `{R : RandomGen} (w : World) :
  exists token : pystr,
    rand_slug_in_world w = (Ok token, set_w_random (three_draws (w_random w)) w) /\
    (rand_slug (w_random w)).1 = Ok token /\
    w_now (rand_slug_in_world w).2 = w_now w /\
    w_categories (rand_slug_in_world w).2 = w_categories w /\
    w_products (rand_slug_in_world w).2 = w_products w.
Proof.
  destruct (rand_slug_total (w_random w)) as (c1 & c2 & c3 & _ & _ & _ & E).
  exists [c1; c2; c3].
  assert (Hw : rand_slug_in_world w
               = (Ok [c1; c2; c3], set_w_random (three_draws (w_random w)) w)).
  { unfold rand_slug_in_world, zoom. by rewrite E. }
  rewrite Hw, E. done.
Qed.

(** C2, as stated, fails: the slug is not the token, a fixed separator and
    the slugified name put together.  The names "x" and " x" have the same
    slugified form, yet from the same state [save] gives them different
    slugs, "bff-pickbetterx" and "bff-pickbetter-x": [slugify] is applied to
    the whole concatenation, so white space and hyphens at the start of the
    name survive as one hyphen. *)
Lemma slug_not_token_separator_slugified_name :
  ~ slug_is_token_separator_slugified_name lcg no_decomp.
Proof.
  intros [separator Hclaim].
  destruct (Hclaim (new_Category "x" None "") world0 eq_refl) as (t1 & Ht1 & E1).
  destruct (Hclaim (new_Category " x" None "") world0 eq_refl) as (t2 & Ht2 & E2).
  vm_compute in Ht1, Ht2. injection Ht1 as <-. injection Ht2 as <-.
  vm_compute in E1, E2.
  injection E1 as E1. injection E2 as E2. rewrite <- E1 in E2. discriminate.
Qed.

Lemma lstrip_length (l : pystr) : length (lstrip l) <= length l.
Proof.
  induction l as [|c l IH]; cbn; [done|].
  destruct (is_strip_char c); cbn; lia.
Qed.

(** C2, amended.  Saving a Category whose slug is empty draws a token of
    three characters (lowercase ASCII letters or digits) and assigns
    [slugify(token + '-pickBetter' + name)].  That slug is the token, then
    "-pickbetter", then the cleaned name with the hyphens and underscores
    at its end removed; it is not empty.  The framework's [save] then runs
    on the instance with that slug, and keeps it.  The slug is the token,
    "-pickbetter" and [slugify(name)] exactly when the cleaned name, with
    the hyphens and underscores at its end removed, is empty or starts with
    another character; so it is whenever the cleaned name does not start
    with a hyphen or an underscore. *)
Theorem Category_save_assigns_slug `{R : RandomGen} (decomp : N -> pystr)
    (self : Category) (w : World) :
  c_slug self = [] ->
  exists token : pystr,
    (rand_slug (w_random w)).1 = Ok token /\
    length token = 3 /\
    Forall (fun c => is_ascii_lower c = true \/ is_digit c = true) token /\
    let slug := slugify decomp (token ++ pickBetter ++ c_name self) in
    slug = token ++ pickbetter ++ rstrip (cleaned decomp (c_name self)) /\
    slug <> [] /\
    Category_save decomp (self, w)
    = Model_save_Category
        (set_c_slug slug self, set_w_random (three_draws (w_random w)) w) /\
    c_slug (Category_save decomp (self, w)).2.1 = slug /\
    (match cleaned decomp (c_name self) with
     | c :: _ => is_strip_char c = false
     | [] => True
     end ->
     slug = token ++ pickbetter ++ slugify decomp (c_name self)) /\
    (slug = token ++ pickbetter ++ slugify decomp (c_name self) <->
     match rstrip (cleaned decomp (c_name self)) with
     | c :: _ => is_strip_char c = false
     | [] => True
     end).
Proof.
  intros Hs.
  destruct (rand_slug_total (w_random w)) as (c1 & c2 & c3 & H1 & H2 & H3 & E).
  exists [c1; c2; c3]. rewrite E. split; [done|]. split; [done|].
  split.
  { unfold token_char in *.
    repeat apply Forall_cons_2; try apply Forall_nil_2;
      apply orb_true_iff; assumption. }
  cbv zeta. rewrite (Category_save_falsy decomp self w _ Hs E).
  destruct (Model_save_Category_frame
              (set_c_slug (slugify decomp ([c1; c2; c3] ++ pickBetter ++ c_name self)) self)
              (set_w_random (three_draws (w_random w)) w)) as (-> & _).
  rewrite (slugify_token_infix decomp c1 c2 c3 (c_name self) H1 H2 H3).
  change (slugify decomp (c_name self))
    with (lstrip (rstrip (cleaned decomp (c_name self)))).
  split; [done|]. split; [done|]. split; [done|]. split; [done|]. split.
  - intros Hstart. do 2 f_equal.
    destruct (cleaned decomp (c_name self)) as [|c rest]; [reflexivity|].
    pose proof (rstrip_app_keep [] c rest Hstart) as Hr. cbn [app] in Hr.
    rewrite Hr. cbn [lstrip]. by rewrite Hstart.
  - set (kept := rstrip (cleaned decomp (c_name self))). split.
    + intros Heq. apply app_inv_head, app_inv_head in Heq.
      destruct kept as [|c rest]; [done|].
      destruct (is_strip_char c) eqn:Hc; [exfalso|done].
      cbn [lstrip] in Heq. rewrite Hc in Heq.
      pose proof (lstrip_length rest) as Hlen. rewrite <- Heq in Hlen.
      cbn in Hlen. lia.
    + intros Hstart. do 2 f_equal.
      destruct kept as [|c rest]; [reflexivity|]. cbn [lstrip]. by rewrite Hstart.
Qed.

Lemma Category_save_assigns_slug_witness :
  c_slug (new_Category "Phones" None "") = [] /\
  c_slug (@Category_save lcg no_decomp (new_Category "Phones" None "", world0)).2.1
  <> [].
Proof.
  split; [reflexivity|].
  destruct (@Category_save_assigns_slug lcg no_decomp
              (new_Category "Phones" None "") world0 eq_refl)
    as (token & _ & _ & _ & Hpost).
  cbv zeta in Hpost. destruct Hpost as (_ & Hne & _ & Hslug & _).
  rewrite Hslug. exact Hne.
Defined.

(** C6.  Saving a Category whose slug is not empty leaves the slug as it is,
    on the instance and, when the save succeeds, in the stored row; no
    random number is drawn.  The slug is only generated by a save that
    finds it empty: after any save the slug is not empty, so no later save
    assigns it again. *)
Theorem Category_save_keeps_slug `{R : RandomGen} (decomp : N -> pystr)
    (self : Category) (w : World) :
  c_slug self <> [] ->
  c_slug (Category_save decomp (self, w)).2.1 = c_slug self /\
  w_random (Category_save decomp (self, w)).2.2 = w_random w /\
  (forall self' w',
     Category_save decomp (self, w) = (Ok tt, (self', w')) ->
     exists i, c_id self' = Some i /\ w_categories w' !! i = Some self' /\
               c_slug self' = c_slug self) /\
  (forall w2 : World,
     c_slug (Category_save decomp ((Category_save decomp (self, w)).2.1, w2)).2.1
     = c_slug self).
Proof.
  intros Hs.
  rewrite (Category_save_truthy decomp self w Hs).
  destruct (Model_save_Category_frame self w) as (Hslug & _ & Hrandom & _).
  split; [exact Hslug|]. split; [exact Hrandom|]. split.
  - intros self' w' Hsave.
    destruct (Model_save_Category_stored self self' w w' Hsave) as (i & Hid & Hrow).
    exists i. repeat split; try assumption.
    rewrite Hsave in Hslug. exact Hslug.
  - intros w2. rewrite Category_save_truthy by (by rewrite Hslug).
    destruct (Model_save_Category_frame (Model_save_Category (self, w)).2.1 w2)
      as (-> & _).
    exact Hslug.
Qed.

Lemma Category_save_keeps_slug_witness :
  c_slug (new_Category "Phones" None "phones") <> [] /\
  c_slug (@Category_save lcg no_decomp (new_Category "Phones" None "phones", world0)).2.1
  = pystr_of_string "phones".
Proof.
  assert (Hne : c_slug (new_Category "Phones" None "phones") <> []) by discriminate.
  split; [exact Hne|].
  exact (proj1 (@Category_save_keeps_slug lcg no_decomp
                  (new_Category "Phones" None "phones") world0 Hne)).
Defined.

(** ** The availability filter *)

Lemma insert_by_perm {A} (le : A -> A -> bool) (x : A) (l : list A) :
  insert_by le x l ≡ₚ x :: l.
Proof.
  induction l as [|y l IH]; cbn; [done|].
  destruct (le x y); [done|]. rewrite IH. apply Permutation_swap.
Qed.

Lemma sort_by_perm {A} (le : A -> A -> bool) (l : list A) : sort_by le l ≡ₚ l.
Proof.
  induction l as [|x l IH]; cbn; [done|].
  rewrite insert_by_perm. by rewrite IH.
Qed.

Section QueryFacts.
Context {R : RandomGen}.
Variable collate_le : pystr -> pystr -> bool.

Lemma Product_objects_perm (w : World) :
  Product_objects collate_le w ≡ₚ (map_to_list (w_products w)).*2.
Proof.
  unfold Product_objects, evaluate. rewrite sort_by_perm. cbn.
  induction ((map_to_list (w_products w)).*2) as [|p l IH]; [done|].
  rewrite filter_cons_True by done. by rewrite IH.
Qed.

Lemma ProductProxy_objects_perm (w : World) :
  ProductProxy_objects collate_le w
  ≡ₚ filter (fun p => p_available p = true) (map_to_list (w_products w)).*2.
Proof.
  unfold ProductProxy_objects, evaluate. rewrite sort_by_perm.
  erewrite list_filter_iff; [reflexivity|].
  intros p. cbn. by destruct (p_available p).
Qed.

Lemma elem_of_Product_objects (w : World) (p : Product) :
  p ∈ Product_objects collate_le w <-> exists i, w_products w !! i = Some p.
Proof.
  rewrite Product_objects_perm, list_elem_of_fmap. split.
  - intros ([i q] & -> & Hin). exists i. by apply elem_of_map_to_list.
  - intros [i Hi]. exists (i, p). split; [done|]. by apply elem_of_map_to_list.
Qed.

Lemma Model_save_Product_stored (self self' : Product) (w w' : World) :
  Model_save_Product (self, w) = (Ok tt, (self', w')) ->
  p_available self' = p_available self /\
  exists i, p_id self' = Some i /\ w_products w' !! i = Some self'.
Proof.
  destruct (Model_save_Product_unfold self w)
    as (self0 & w0 & (_ & _ & Hav & _) & _ & [[_ ->]|(_ & _ & k & seq & _ & ->)]);
    [done|].
  destruct (write_Product k self0 (w_categories w) (w_products w)) as [t|] eqn:Hw; [|done].
  intros [= <- <-]. split; [done|].
  exists k. split; [done|].
  unfold write_Product in Hw. destruct (_ && _); [|done].
  injection Hw as <-. cbn. by rewrite lookup_insert_eq.
Qed.
End QueryFacts.

(** C3.  The default query of [ProductProxy] returns exactly the stored
    Products whose [available] flag is true, each once: it is the base query
    of Product filtered on the flag.  A Product saved with
    [available=False] is returned by the base query and not by the proxy's. *)
Theorem ProductProxy_returns_available `{R : RandomGen}
    (collate_le : pystr -> pystr -> bool) (w : World) :
  ProductProxy_objects collate_le w
  ≡ₚ filter (fun p => p_available p = true) (Product_objects collate_le w) /\
  (forall p : Product,
     p ∈ ProductProxy_objects collate_le w <->
     (exists i, w_products w !! i = Some p) /\ p_available p = true) /\
  (forall (p p' : Product) (w' : World),
     p_available p = false ->
     Model_save_Product (p, w) = (Ok tt, (p', w')) ->
     p' ∈ Product_objects collate_le w' /\
     p' ∉ ProductProxy_objects collate_le w').
Proof.
  assert (Hmem : forall (v : World) (p : Product),
             p ∈ ProductProxy_objects collate_le v <->
             (exists i, w_products v !! i = Some p) /\ p_available p = true).
  { intros v p. rewrite ProductProxy_objects_perm, list_elem_of_filter.
    rewrite <- (elem_of_Product_objects collate_le v p), Product_objects_perm.
    tauto. }
  split; [|split].
  - rewrite ProductProxy_objects_perm. by rewrite Product_objects_perm.
  - apply Hmem.
  - intros p p' w' Hav Hsave.
    destruct (Model_save_Product_stored p p' w w' Hsave) as (Hav' & i & _ & Hrow).
    split.
    + apply elem_of_Product_objects. by exists i.
    + rewrite Hmem. intros [_ Htrue]. congruence.
Qed.

(** ** Uniqueness of Category slugs *)

(** What an accepted write guarantees. *)
Lemma write_Category_accepted (i : nat) (r : Category) (table table' : gmap nat Category) :
  write_Category i r table = Some table' ->
  table' = <[i := set_c_id (Some i) r]> table /\
  (forall j r', j <> i -> table !! j = Some r' -> c_slug r' <> c_slug r) /\
  (forall p, c_parent r = Some p -> is_Some (table' !! p)).
Proof.
  unfold write_Category. intros Hw.
  destruct (unique_ok _ _ _) eqn:Hu; [|done].
  destruct (bool_decide (is_Some _)); [|done].
  destruct (fk_ok _ _) eqn:Hfk; [|done].
  cbn in Hw. injection Hw as <-. split; [done|]. split.
  - intros j r' Hji Hj Heq.
    cbn in Hu. apply andb_true_iff in Hu as [Hu _].
    apply bool_decide_eq_true in Hu.
    specialize (Hu j r'). rewrite lookup_delete_ne in Hu by done.
    specialize (Hu Hj). rewrite Heq in Hu.
    rewrite bool_decide_eq_true_2 in Hu by done. done.
  - intros p Hp. cbn in Hfk. rewrite Hp in Hfk.
    by apply bool_decide_eq_true in Hfk.
Qed.

Lemma write_Category_slug_unique i r table table' :
  write_Category i r table = Some table' -> slug_unique table -> slug_unique table'.
Proof.
  intros Hw Hinv. destruct (write_Category_accepted _ _ _ _ Hw) as (-> & Hfresh & _).
  intros j k r1 r2 Hj Hk Heq.
  destruct (decide (j = i)) as [->|Hji], (decide (k = i)) as [->|Hki]; [done|..].
  - rewrite lookup_insert_eq in Hj. rewrite lookup_insert_ne in Hk by done.
    injection Hj as <-. cbn in Heq. by destruct (Hfresh k r2 Hki Hk).
  - rewrite lookup_insert_eq in Hk. rewrite lookup_insert_ne in Hj by done.
    injection Hk as <-. cbn in Heq. by destruct (Hfresh j r1 Hji Hj).
  - rewrite lookup_insert_ne in Hj, Hk by done. by eapply Hinv.
Qed.

Lemma write_Category_slug_parent_unique i r table table' :
  write_Category i r table = Some table' ->
  slug_parent_unique table -> slug_parent_unique table'.
Proof.
  intros Hw Hinv. destruct (write_Category_accepted _ _ _ _ Hw) as (-> & Hfresh & _).
  intros j k r1 r2 Hj Hk Heq Hpar.
  destruct (decide (j = i)) as [->|Hji], (decide (k = i)) as [->|Hki]; [done|..].
  - rewrite lookup_insert_eq in Hj. rewrite lookup_insert_ne in Hk by done.
    injection Hj as <-. cbn in Heq. by destruct (Hfresh k r2 Hki Hk).
  - rewrite lookup_insert_eq in Hk. rewrite lookup_insert_ne in Hj by done.
    injection Hk as <-. cbn in Heq. by destruct (Hfresh j r1 Hji Hj).
  - rewrite lookup_insert_ne in Hj, Hk by done. by eapply Hinv.
Qed.

Lemma slug_unique_subseteq (t t' : gmap nat Category) :
  t' ⊆ t -> slug_unique t -> slug_unique t'.
Proof.
  intros Hsub Hinv i j r1 r2 Hi Hj. apply Hinv; by eapply lookup_weaken.
Qed.

Lemma slug_parent_unique_subseteq (t t' : gmap nat Category) :
  t' ⊆ t -> slug_parent_unique t -> slug_parent_unique t'.
Proof.
  intros Hsub Hinv i j r1 r2 Hi Hj. apply Hinv; by eapply lookup_weaken.
Qed.

Section TableFacts.
Context {R : RandomGen}.
Variable decomp : N -> pystr.

(** [Model.save] leaves the Category table as it is, or performs one
    accepted write. *)
Lemma Model_save_Category_table (self : Category) (w : World) :
  w_categories (Model_save_Category (self, w)).2.2 = w_categories w \/
  exists i r,
    write_Category i r (w_categories w)
    = Some (w_categories (Model_save_Category (self, w)).2.2).
Proof.
  destruct (Model_save_Category_unfold self w)
    as (self0 & w0 & i & seq & _ & (_ & _ & Ht & _) & _ & ->).
  destruct (write_Category i self0 (w_categories w)) as [t|] eqn:Hw.
  - right. by exists i, self0.
  - by left.
Qed.

(** [Category.save] is [Model.save] on an instance and a state with the
    same tables. *)
Lemma Category_save_as_Model_save (self : Category) (w : World) :
  exists self0 w0,
    Category_save decomp (self, w) = Model_save_Category (self0, w0) /\
    w_categories w0 = w_categories w /\ w_products w0 = w_products w /\
    c_parent self0 = c_parent self /\ c_id self0 = c_id self.
Proof.
  destruct (c_slug self) as [|c s] eqn:Hs.
  - destruct (rand_slug_total (w_random w)) as (c1 & c2 & c3 & _ & _ & _ & E).
    eexists _, _. split; [exact (Category_save_falsy decomp self w _ Hs E)|done].
  - exists self, w. split; [|done].
    apply Category_save_truthy. by rewrite Hs.
Qed.

(** What an operation can do to the Category table. *)
Lemma run_op_categories (o : op) (w : World) :
  w_categories (run_op decomp o w) ⊆ w_categories w \/
  exists i r,
    write_Category i r (w_categories w) = Some (w_categories (run_op decomp o w)).
Proof.
  destruct o as [c|c|p|p|dt|d]; cbn [run_op].
  - destruct (Category_save_as_Model_save c w) as (c0 & w0 & -> & Ht & _).
    destruct (Model_save_Category_table c0 w0) as [Hsame|(i & r & Hw)].
    + left. by rewrite Hsame, Ht.
    + right. exists i, r. by rewrite <- Ht.
  - left. unfold Category_delete. destruct (c_id c); [|done].
    cbn. apply map_filter_subseteq.
  - left. by destruct (Model_save_Product_frame p w) as (-> & _).
  - left. unfold Product_delete. destruct (p_id p); done.
  - by left.
  - by left.
Qed.

Lemma run_op_slug_unique (o : op) (w : World) :
  slug_unique (w_categories w) -> slug_unique (w_categories (run_op decomp o w)).
Proof.
  intros Hinv. destruct (run_op_categories o w) as [Hsub|(i & r & Hw)].
  - by eapply slug_unique_subseteq.
  - by eapply write_Category_slug_unique.
Qed.

Lemma run_op_slug_parent_unique (o : op) (w : World) :
  slug_parent_unique (w_categories w) ->
  slug_parent_unique (w_categories (run_op decomp o w)).
Proof.
  intros Hinv. destruct (run_op_categories o w) as [Hsub|(i & r & Hw)].
  - by eapply slug_parent_unique_subseteq.
  - by eapply write_Category_slug_parent_unique.
Qed.

(** An invariant of the operations holds after every history. *)
Lemma run_ops_invariant (I : World -> Prop) :
  (forall o w, I w -> I (run_op decomp o w)) ->
  forall ops w, I w -> I (run_ops decomp ops w).
Proof.
  intros Hstep ops. unfold run_ops.
  induction ops as [|o ops IH]; intros w Hw; cbn; [done|].
  by apply IH, Hstep.
Qed.
End TableFacts.

(** C9.  Category slugs are unique in the whole table, whatever the
    parents: every operation keeps this true, and so after any history that
    starts from the empty database two stored Categories with the same slug
    are one and the same row. *)
Theorem Category_slug_globally_unique `{R : RandomGen} (decomp : N -> pystr) :
  (forall (o : op) (w : World),
     slug_unique (w_categories w) ->
     slug_unique (w_categories (run_op decomp o w))) /\
  (forall (ops : list op) (g : rng) (now : N) (i j : nat) (r1 r2 : Category),
     let table := w_categories (run_ops decomp ops (empty_world g now)) in
     table !! i = Some r1 -> table !! j = Some r2 ->
     c_slug r1 = c_slug r2 ->
     i = j /\ r1 = r2).
Proof.
  split; [apply run_op_slug_unique|].
  intros ops g now i j r1 r2 table Hi Hj Heq.
  assert (Hinv : slug_unique table).
  { apply (run_ops_invariant decomp (fun w => slug_unique (w_categories w))).
    - apply run_op_slug_unique.
    - intros ? ? ? ? Hempty. cbn in Hempty. by rewrite lookup_empty in Hempty. }
  assert (i = j) as -> by (by eapply Hinv).
  split; [done|congruence].
Qed.

Lemma Category_slug_globally_unique_witness :
  w_categories catalogue !! 2
  = Some (stored 2 (new_Category "Android" (Some 1) "android")) /\
  w_categories catalogue !! 5
  = Some (stored 5 (new_Category "Apple" (Some 4) "apple-laptops")) /\
  c_slug (stored 2 (new_Category "Android" (Some 1) "android"))
  <> c_slug (stored 5 (new_Category "Apple" (Some 4) "apple-laptops")).
Proof.
  assert (H1 : w_categories catalogue !! 2
               = Some (stored 2 (new_Category "Android" (Some 1) "android")))
    by (vm_compute; reflexivity).
  assert (H4 : w_categories catalogue !! 5
               = Some (stored 5 (new_Category "Apple" (Some 4) "apple-laptops")))
    by (vm_compute; reflexivity).
  split; [exact H1|]. split; [exact H4|].
  intros Heq.
  destruct (proj2 (@Category_slug_globally_unique lcg no_decomp)
              catalogue_history 42%N 1000%N 2 5 _ _ H1 H4 Heq) as [Hkey _].
  discriminate Hkey.
Defined.

(** C1.  At most one Category is stored per pair of slug and parent: every
    operation keeps this true, and so after any history that starts from
    the empty database two stored Categories with the same slug and the
    same parent are one and the same row. *)
Theorem Category_slug_parent_pair_unique `{R : RandomGen} (decomp : N -> pystr) :
  (forall (o : op) (w : World),
     slug_parent_unique (w_categories w) ->
     slug_parent_unique (w_categories (run_op decomp o w))) /\
  (forall (ops : list op) (g : rng) (now : N) (i j : nat) (r1 r2 : Category),
     let table := w_categories (run_ops decomp ops (empty_world g now)) in
     table !! i = Some r1 -> table !! j = Some r2 ->
     c_slug r1 = c_slug r2 -> c_parent r1 = c_parent r2 ->
     i = j /\ r1 = r2).
Proof.
  split; [apply run_op_slug_parent_unique|].
  intros ops g now i j r1 r2 table Hi Hj Heq Hpar.
  assert (Hinv : slug_parent_unique table).
  { apply (run_ops_invariant decomp (fun w => slug_parent_unique (w_categories w))).
    - apply run_op_slug_parent_unique.
    - intros ? ? ? ? Hempty. cbn in Hempty. by rewrite lookup_empty in Hempty. }
  assert (i = j) as -> by (by eapply Hinv).
  split; [done|congruence].
Qed.

Lemma Category_slug_parent_pair_unique_witness :
  w_categories catalogue !! 2
  = Some (stored 2 (new_Category "Android" (Some 1) "android")) /\
  w_categories catalogue !! 3
  = Some (stored 3 (new_Category "Apple" (Some 1) "apple-phones")) /\
  c_slug (stored 2 (new_Category "Android" (Some 1) "android"))
  <> c_slug (stored 3 (new_Category "Apple" (Some 1) "apple-phones")).
Proof.
  assert (H1 : w_categories catalogue !! 2
               = Some (stored 2 (new_Category "Android" (Some 1) "android")))
    by (vm_compute; reflexivity).
  assert (H2 : w_categories catalogue !! 3
               = Some (stored 3 (new_Category "Apple" (Some 1) "apple-phones")))
    by (vm_compute; reflexivity).
  split; [exact H1|]. split; [exact H2|].
  intros Heq.
  destruct (proj2 (@Category_slug_parent_pair_unique lcg no_decomp)
              catalogue_history 42%N 1000%N 2 3 _ _ H1 H2 Heq eq_refl) as [Hkey _].
  discriminate Hkey.
Defined.

(** A second Category with a slug that is taken is refused, also under
    another parent, and the table stays as it was. *)
Example duplicate_slug_refused :
  @Category_save lcg no_decomp (new_Category "Android" (Some 4) "android", catalogue)
  = (Raise IntegrityError,
     (set_c_created_at (Some 1000%N) (new_Category "Android" (Some 4) "android"),
      catalogue)).
Proof. vm_compute. reflexivity. Qed.

(** [unique_together] keeps NULL parents apart: on its own it would admit
    two parentless Categories with one slug.  The pair is unique for them
    because [slug] is declared [unique=True]. *)
Remark unique_together_alone_admits_parentless_duplicates :
  unique_ok [ [F_slug; F_parent] ]
            {[ 0 := set_c_id (Some 0) (new_Category "Phones" None "phones") ]}
            (new_Category "Telephones" None "phones") = true /\
  unique_ok Category_unique
            {[ 0 := set_c_id (Some 0) (new_Category "Phones" None "phones") ]}
            (new_Category "Telephones" None "phones") = false.
Proof. split; vm_compute; reflexivity. Qed.

(** ** [Category.__str__] *)

Lemma Category_str_loop_ancestry (table : gmap nat Category) (k : Category)
    (l : list Category) :
  ancestry table k l ->
  forall (fuel : nat) (full_path : list pystr),
    length l <= fuel ->
    Category_str_loop fuel table full_path (Some k)
    = Returns (join arrow (rev (full_path ++ map c_name l))).
Proof.
  induction 1 as [c Hroot | c k p l Hpar Hrow Hanc IH]; intros fuel full_path Hfuel.
  - destruct fuel as [|fuel]; [cbn in Hfuel; lia|].
    cbn [Category_str_loop]. unfold get_parent. rewrite Hroot. by destruct fuel.
  - destruct fuel as [|fuel]; [cbn in Hfuel; lia|].
    cbn [Category_str_loop]. unfold get_parent. rewrite Hpar, Hrow.
    rewrite IH by (cbn in Hfuel; lia).
    by rewrite <- app_assoc.
Qed.

Lemma Category_str_ancestry (table : gmap nat Category) (self : Category)
    (l : list Category) (fuel : nat) :
  ancestry table self l ->
  length l <= S fuel ->
  Category_str fuel table self = Returns (join arrow (map c_name (rev l))).
Proof.
  intros Hanc Hfuel. rewrite map_rev. unfold Category_str, get_parent.
  inversion Hanc as [c Hroot | c k p l' Hpar Hrow Hanc']; subst.
  - rewrite Hroot. by destruct fuel.
  - rewrite Hpar, Hrow.
    rewrite (Category_str_loop_ancestry table k l' Hanc') by (cbn in Hfuel; lia).
    reflexivity.
Qed.

Lemma Category_str_loop_returns (table : gmap nat Category) (fuel : nat) :
  forall (full_path : list pystr) (k : Category) (s : pystr),
    Category_str_loop fuel table full_path (Some k) = Returns s ->
    exists l, ancestry table k l.
Proof.
  induction fuel as [|fuel IH]; intros full_path k s; [done|].
  cbn [Category_str_loop]. unfold get_parent.
  destruct (c_parent k) as [p|] eqn:Hpar.
  - destruct (table !! p) as [row|] eqn:Hrow; [|done].
    intros Hloop. destruct (IH _ _ _ Hloop) as [l Hl].
    exists (k :: l). by eapply ancestry_step.
  - intros _. exists [k]. by apply ancestry_root.
Qed.

(** C4.  For a Category whose ancestors lead to a Category without parent,
    [__str__] returns the names along that chain, from the root down to the
    Category itself, joined by " -> ". *)
Theorem Category_str_joins_root_to_leaf (table : gmap nat Category)
    (self : Category) (l : list Category) :
  ancestry table self l ->
  forall fuel : nat,
    length l <= S fuel ->
    Category_str fuel table self
    = Returns (join (pystr_of_string " -> ") (map c_name (rev l))).
Proof. intros Hanc fuel Hfuel. by apply Category_str_ancestry. Qed.

Lemma Category_str_joins_root_to_leaf_witness :
  Category_str 1 (w_categories catalogue)
    (stored 5 (new_Category "Apple" (Some 4) "apple-laptops"))
  = Returns (pystr_of_string "Laptops -> Apple").
Proof.
  assert (Hanc : ancestry (w_categories catalogue)
                   (stored 5 (new_Category "Apple" (Some 4) "apple-laptops"))
                   [stored 5 (new_Category "Apple" (Some 4) "apple-laptops");
                    stored 4 (new_Category "Laptops" None "laptops")]).
  { eapply ancestry_step; [reflexivity | vm_compute; reflexivity |].
    apply ancestry_root. reflexivity. }
  rewrite (Category_str_joins_root_to_leaf _ _ _ Hanc 1) by (cbn; lia).
  reflexivity.
Defined.

(** C10.  When the parent chain of a Category reaches a Category without
    parent, the traversal of [__str__] ends: the loop runs once per ancestor
    and returns.  It returns only in that case. *)
Theorem Category_str_terminates (table : gmap nat Category) (self : Category) :
  (forall l : list Category,
     ancestry table self l ->
     forall fuel : nat,
       length l <= S fuel ->
       exists s : pystr, Category_str fuel table self = Returns s) /\
  ((exists (fuel : nat) (s : pystr), Category_str fuel table self = Returns s) ->
   exists l : list Category, ancestry table self l).
Proof.
  split.
  - intros l Hanc fuel Hfuel. eexists. by apply Category_str_ancestry.
  - intros (fuel & s & Hret). unfold Category_str, get_parent in Hret.
    destruct (c_parent self) as [p|] eqn:Hpar.
    + destruct (table !! p) as [row|] eqn:Hrow; [|done].
      destruct (Category_str_loop_returns _ _ _ _ _ Hret) as [l Hl].
      exists (self :: l). by eapply ancestry_step.
    + exists [self]. by apply ancestry_root.
Qed.

Lemma Category_str_terminates_witness :
  exists s : pystr,
    Category_str 1 (w_categories catalogue)
      (stored 3 (new_Category "Apple" (Some 1) "apple-phones"))
    = Returns s.
Proof.
  apply (proj1 (Category_str_terminates (w_categories catalogue)
                  (stored 3 (new_Category "Apple" (Some 1) "apple-phones")))
           [stored 3 (new_Category "Apple" (Some 1) "apple-phones");
            stored 1 (new_Category "Phones" None "phones")]).
  - eapply ancestry_step; [reflexivity | vm_compute; reflexivity |].
    apply ancestry_root. reflexivity.
  - cbn. lia.
Defined.

(** A Category can be made its own parent by two saves; on such a chain the
    loop of [__str__] never ends. *)
Example Category_str_cycle_diverges :
  let self := stored 1 (new_Category "Loop" (Some 1) "loop") in
  let w := @run_ops lcg no_decomp
             [SaveCategory (new_Category "Loop" None "loop"); SaveCategory self]
             world0 in
  w_categories w !! 1 = Some (stored 1 (new_Category "Loop" (Some 1) "loop")) /\
  forall fuel : nat, Category_str fuel (w_categories w) self = OutOfFuel.
Proof.
  cbv zeta. split; [vm_compute; reflexivity|].
  set (table := w_categories _).
  assert (Hrow : table !! 1 = Some (stored 1 (new_Category "Loop" (Some 1) "loop")))
    by (vm_compute; reflexivity).
  assert (Hloop : forall fuel full_path,
             Category_str_loop fuel table full_path
               (Some (stored 1 (new_Category "Loop" (Some 1) "loop")))
             = OutOfFuel).
  { induction fuel as [|fuel IH]; intros full_path; [done|].
    cbn [Category_str_loop]. unfold get_parent.
    cbn [c_parent stored set_c_id set_c_created_at new_Category].
    rewrite Hrow. apply IH. }
  intros fuel. unfold Category_str, get_parent.
  cbn [c_parent stored set_c_id set_c_created_at new_Category].
  rewrite Hrow. apply Hloop.
Qed.

(** ** Cascading deletion *)

Lemma refers_to_true (keys : gset nat) (ref : option nat) :
  refers_to keys ref = true <-> exists k, ref = Some k /\ k ∈ keys.
Proof.
  unfold refers_to. destruct ref as [k|].
  - rewrite bool_decide_eq_true. naive_solver.
  - naive_solver.
Qed.

Lemma elem_of_children_of (table : gmap nat Category) (keys : gset nat) (j : nat) :
  j ∈ children_of table keys <->
  exists r p, table !! j = Some r /\ c_parent r = Some p /\ p ∈ keys.
Proof.
  unfold children_of. rewrite elem_of_dom. unfold is_Some.
  setoid_rewrite map_lookup_filter_Some. cbn [snd].
  setoid_rewrite refers_to_true. naive_solver.
Qed.

Section CollectFacts.
Variable table : gmap nat Category.
Variable i : nat.

Lemma collect_spec (fuel : nat) :
  forall seen new : gset nat,
    children_of table seen ⊆ seen ∪ new ->
    seen ∪ new ⊆ {[i]} ∪ dom table ->
    (forall j, j ∈ seen ∪ new -> j = i \/ descendant table i j) ->
    size (({[i]} ∪ dom table) ∖ seen) < fuel ->
    seen ∪ new ⊆ collect fuel table seen new /\
    children_of table (collect fuel table seen new) ⊆ collect fuel table seen new /\
    (forall j, j ∈ collect fuel table seen new -> j = i \/ descendant table i j).
Proof.
  induction fuel as [|fuel IH]; intros seen new Hkids Hbound Hsound Hsize; [lia|].
  cbn [collect]. destruct (decide (new ∖ seen = ∅)) as [Hdone|Hmore].
  - assert (new ⊆ seen) as Hsub.
    { intros x Hx. destruct (decide (x ∈ seen)); [done|].
      assert (x ∈ new ∖ seen) as Hin by set_solver.
      rewrite Hdone in Hin. set_solver. }
    split; [set_solver|]. split; [set_solver|].
    intros j Hj. apply Hsound. set_solver.
  - destruct (set_choose_L _ Hmore) as [x Hx].
    destruct (IH (seen ∪ new ∖ seen) (children_of table (new ∖ seen)))
      as (Hin & Hclosed & Hsound').
    + intros j Hj. apply elem_of_children_of in Hj as (r & p & Hr & Hp & Hpin).
      apply elem_of_union in Hpin as [Hpin|Hpin].
      * assert (j ∈ seen ∪ new) as Hjn.
        { apply Hkids, elem_of_children_of. eauto. }
        destruct (decide (j ∈ seen)); set_solver.
      * apply elem_of_union_r, elem_of_children_of. eauto.
    + intros j Hj. apply elem_of_union in Hj as [Hj|Hj]; [set_solver|].
      apply elem_of_children_of in Hj as (r & _ & Hr & _).
      apply elem_of_union_r, elem_of_dom. eauto.
    + intros j Hj. apply elem_of_union in Hj as [Hj|Hj].
      { apply Hsound. set_solver. }
      apply elem_of_children_of in Hj as (r & p & Hr & Hp & Hpin).
      right. destruct (Hsound p) as [->|Hdesc]; [set_solver| |].
      * by eapply descendant_child.
      * by eapply descendant_step.
    + assert (({[i]} ∪ dom table) ∖ (seen ∪ new ∖ seen)
              ⊂ ({[i]} ∪ dom table) ∖ seen) as Hlt.
      { split; [set_solver|]. intros Hsub.
        assert (x ∈ ({[i]} ∪ dom table) ∖ seen) as Hx1 by set_solver.
        apply Hsub in Hx1. set_solver. }
      apply subset_size in Hlt. lia.
    + split; [|done]. intros j Hj. apply Hin.
      destruct (decide (j ∈ seen)); set_solver.
Qed.

(** The collector gathers the start key and exactly its descendants, and
    what it gathers is closed under the child relation. *)
Lemma cascade_spec (j : nat) :
  j ∈ cascade table i <-> j = i \/ descendant table i j.
Proof.
  unfold cascade.
  destruct (collect_spec (size table + 2) ∅ {[i]}) as (Hin & Hclosed & Hsound).
  - intros x Hx. apply elem_of_children_of in Hx. set_solver.
  - set_solver.
  - intros x Hx. left. set_solver.
  - pose (keys := dom table : gset nat).
    assert (size ({[i]} ∪ keys) <= size table + 1) as Hle1.
    { rewrite size_union_alt, size_singleton.
      assert (size (keys ∖ {[i]}) <= size keys)
        as Hle2 by (apply subseteq_size; set_solver).
      unfold keys in Hle2 at 2. rewrite size_dom in Hle2. lia. }
    assert (size (({[i]} ∪ keys) ∖ ∅) <= size ({[i]} ∪ keys))
      as Hle3 by (apply subseteq_size; set_solver).
    fold keys. lia.
  - split; [apply Hsound|].
    intros [->|Hdesc]; [set_solver|].
    induction Hdesc as [j r Hr Hp | j k r Hr Hp Hk IH];
      apply Hclosed, elem_of_children_of.
    + exists r, i. repeat split; [done..|]. set_solver.
    + exists r, k. done.
Qed.
End CollectFacts.

Section DeleteFacts.
Context {R : RandomGen}.

Lemma Category_delete_tables (self : Category) (i : nat) (w : World) :
  c_id self = Some i ->
  (Category_delete (self, w)).1 = Ok tt /\
  (forall j r,
     w_categories (Category_delete (self, w)).2.2 !! j = Some r <->
     w_categories w !! j = Some r /\ j <> i /\ ~ descendant (w_categories w) i j) /\
  (forall k q,
     w_products (Category_delete (self, w)).2.2 !! k = Some q <->
     w_products w !! k = Some q /\
     forall c, p_category q = Some c ->
               c <> i /\ ~ descendant (w_categories w) i c).
Proof.
  intros Hid. unfold Category_delete. rewrite Hid. cbn [fst snd].
  split; [done|]. split.
  - intros j r. cbn. rewrite map_lookup_filter_Some. cbn [fst].
    rewrite cascade_spec. tauto.
  - intros k q. cbn. rewrite map_lookup_filter_Some. cbn [snd].
    rewrite <- not_true_iff_false, refers_to_true.
    setoid_rewrite cascade_spec. split.
    + intros [Hq Hno]. split; [done|]. intros c Hc.
      split; intros Hbad; apply Hno; exists c; tauto.
    + intros [Hq Hno]. split; [done|]. intros (c & Hc & Hbad).
      destruct (Hno c Hc). tauto.
Qed.

Lemma Category_delete_referential_integrity (self : Category) (i : nat) (w : World) :
  c_id self = Some i ->
  referential_integrity w ->
  referential_integrity (Category_delete (self, w)).2.2.
Proof.
  intros Hid [Hcat Hprod].
  destruct (Category_delete_tables self i w Hid) as (_ & Hc & Hp).
  split.
  - intros j r p Hj Hpar. apply Hc in Hj as (Hj & Hji & Hnd).
    destruct (Hcat j r p Hj Hpar) as [rp Hrp]. exists rp.
    apply Hc. split; [done|]. split.
    + intros ->. apply Hnd. by eapply descendant_child.
    + intros Hd. apply Hnd. by eapply descendant_step.
  - intros k q Hk. apply Hp in Hk as (Hk & Hno).
    destruct (Hprod k q Hk) as (c & Hcq & [rc Hrc]).
    exists c. split; [done|]. exists rc. apply Hc.
    destruct (Hno c Hcq). done.
Qed.
End DeleteFacts.

(** C5.  Deleting a stored Category deletes the Category, all the
    Categories that descend from it through [parent], and every Product of
    a deleted Category; the other rows stay.  No row is left with a
    reference to a deleted row: when every foreign key referred to a stored
    Category before, it does so afterwards. *)
Theorem Category_delete_cascades `{R : RandomGen} (self : Category) (i : nat)
    (w : World) :
  c_id self = Some i ->
  let w' := (Category_delete (self, w)).2.2 in
  (Category_delete (self, w)).1 = Ok tt /\
  w_categories w' !! i = None /\
  (forall j, descendant (w_categories w) i j -> w_categories w' !! j = None) /\
  (forall k q c,
     w_products w !! k = Some q -> p_category q = Some c ->
     c = i \/ descendant (w_categories w) i c ->
     w_products w' !! k = None) /\
  (forall j, j <> i -> ~ descendant (w_categories w) i j ->
             w_categories w' !! j = w_categories w !! j) /\
  (forall k q c,
     w_products w !! k = Some q -> p_category q = Some c ->
     c <> i -> ~ descendant (w_categories w) i c ->
     w_products w' !! k = Some q) /\
  (referential_integrity w -> referential_integrity w').
Proof.
  intros Hid w'. subst w'.
  destruct (Category_delete_tables self i w Hid) as (Hok & Hc & Hp).
  split; [exact Hok|]. split; [|split; [|split; [|split; [|split]]]].
  - apply eq_None_not_Some. intros [r Hr]. apply Hc in Hr. tauto.
  - intros j Hd. apply eq_None_not_Some. intros [r Hr]. apply Hc in Hr. tauto.
  - intros k q c Hk Hcq Hdoomed. apply eq_None_not_Some. intros [q' Hq'].
    apply Hp in Hq' as (Hq' & Hno). assert (q' = q) as -> by congruence.
    destruct (Hno c Hcq). tauto.
  - intros j Hji Hnd. apply option_eq. intros r. rewrite Hc. tauto.
  - intros k q c Hk Hcq Hci Hnd. apply Hp. split; [done|].
    intros c' Hc'. assert (c' = c) as -> by congruence. done.
  - by apply (Category_delete_referential_integrity self i).
Qed.

Lemma Category_delete_cascades_witness :
  let w' := (@Category_delete lcg (stored 4 (new_Category "Laptops" None "laptops"), shop)).2.2 in
  descendant (w_categories shop) 4 5 /\
  w_categories w' !! 4 = None /\
  w_categories w' !! 5 = None /\
  w_products w' !! 2 = None.
Proof.
  cbv zeta.
  assert (Hd : descendant (w_categories shop) 4 5).
  { eapply descendant_child; [vm_compute; reflexivity | reflexivity]. }
  destruct (@Category_delete_cascades lcg
              (stored 4 (new_Category "Laptops" None "laptops")) 4 shop eq_refl)
    as (_ & H3 & H4 & Hprod & _).
  split; [exact Hd|]. split; [exact H3|]. split; [exact (H4 5 Hd)|].
  eapply (Hprod 2 _ 5); [vm_compute; reflexivity | reflexivity | by right].
Defined.

(** ** Referential integrity of the reachable states *)

Section IntegrityFacts.
Context {R : RandomGen}.
Variable decomp : N -> pystr.

Lemma referential_integrity_tables (w1 w2 : World) :
  w_categories w2 = w_categories w1 -> w_products w2 = w_products w1 ->
  referential_integrity w1 -> referential_integrity w2.
Proof. unfold referential_integrity. by intros -> ->. Qed.

Lemma write_Product_accepted (k : nat) (q : Product)
    (categories : gmap nat Category) (table table' : gmap nat Product) :
  write_Product k q categories table = Some table' ->
  table' = <[k := set_p_id (Some k) q]> table /\
  exists c, p_category q = Some c /\ is_Some (categories !! c).
Proof.
  unfold write_Product. intros Hw.
  destruct (bool_decide (is_Some (p_category _))) eqn:Hsome; [|done].
  destruct (fk_ok _ _) eqn:Hfk; [|done].
  destruct (_ && _); [|done]. cbn in Hw. injection Hw as <-.
  split; [done|].
  apply bool_decide_eq_true in Hsome as [c Hc]. cbn in Hc.
  exists c. split; [done|]. cbn in Hfk. rewrite Hc in Hfk.
  by apply bool_decide_eq_true in Hfk.
Qed.

Lemma run_op_referential_integrity (o : op) (w : World) :
  referential_integrity w -> referential_integrity (run_op decomp o w).
Proof.
  intros Hri. destruct o as [c|c|p|p|dt|d]; cbn [run_op].
  - destruct (Category_save_as_Model_save decomp c w) as (c0 & w0 & -> & Ht & Hp & _).
    destruct (Model_save_Category_frame c0 w0) as (_ & _ & _ & _ & Hprod).
    destruct (Model_save_Category_table c0 w0) as [Hsame|(i & r & Hw)].
    { eapply referential_integrity_tables; [| |exact Hri]; congruence. }
    destruct (write_Category_accepted _ _ _ _ Hw) as (Ht' & _ & Hfk).
    destruct Hri as [Hcat Hpr]. rewrite <- Ht in Hcat, Hpr. rewrite <- Hp in Hpr.
    split.
    + intros j rj pj. rewrite Ht'. intros Hj Hpar.
      destruct (decide (j = i)) as [->|Hji].
      * rewrite lookup_insert_eq in Hj. injection Hj as <-.
        rewrite <- Ht'. by apply Hfk.
      * rewrite lookup_insert_ne in Hj by done.
        destruct (decide (pj = i)) as [->|Hpi].
        { rewrite lookup_insert_eq. eauto. }
        rewrite lookup_insert_ne by done. by eapply Hcat.
    + intros k q. rewrite Hprod. intros Hk.
      destruct (Hpr k q Hk) as (cq & Hcq & Hsome). exists cq. split; [done|].
      rewrite Ht'. destruct (decide (cq = i)) as [->|Hci].
      * rewrite lookup_insert_eq. eauto.
      * by rewrite lookup_insert_ne.
  - destruct (c_id c) as [i|] eqn:Hid.
    + by apply (Category_delete_referential_integrity c i).
    + unfold Category_delete. by rewrite Hid.
  - destruct (Model_save_Product_unfold p w)
      as (p0 & w0 & _ & (_ & _ & Hc0 & Hp0 & _) &
          [[_ ->]|(_ & _ & k & seq & _ & ->)]).
    { eapply referential_integrity_tables; [| |exact Hri]; done. }
    destruct (write_Product k p0 (w_categories w) (w_products w)) as [t|] eqn:Hw.
    2: { eapply referential_integrity_tables; [| |exact Hri]; done. }
    destruct (write_Product_accepted _ _ _ _ _ Hw) as (-> & cq & Hcq & Hsome).
    destruct Hri as [Hcat Hpr]. split.
    { intros j r q. cbn. rewrite Hc0. apply Hcat. }
    intros j q. cbn. rewrite Hc0. destruct (decide (j = k)) as [->|Hjk].
    + rewrite lookup_insert_eq. intros [= <-]. exists cq. done.
    + rewrite lookup_insert_ne by done. apply Hpr.
  - unfold Product_delete. destruct (p_id p) as [k|]; [|done].
    destruct Hri as [Hcat Hpr]. split; [exact Hcat|].
    intros j q. cbn. intros Hj. apply lookup_delete_Some in Hj as [_ Hj].
    by eapply Hpr.
  - done.
  - done.
Qed.

(** After any history from the empty database, every foreign key refers
    to a stored Category. *)
Corollary run_ops_referential_integrity (ops : list op) (g : rng) (now : N) :
  referential_integrity (run_ops decomp ops (empty_world g now)).
Proof.
  apply (run_ops_invariant decomp referential_integrity).
  - apply run_op_referential_integrity.
  - split; [intros j r p Hj | intros k q Hk]; cbn in *;
      by rewrite lookup_empty in *.
Qed.
End IntegrityFacts.

Lemma ProductProxy_returns_available_witness :
  let saved := @Model_save_Product lcg (new_Product "iphone" (Some 3) false, shop) in
  p_available (new_Product "iphone" (Some 3) false) = false /\
  saved.2.1 ∈ Product_objects lex_le saved.2.2 /\
  saved.2.1 ∉ ProductProxy_objects lex_le saved.2.2.
Proof.
  cbv zeta. split; [reflexivity|].
  apply (proj2 (proj2 (@ProductProxy_returns_available lcg lex_le shop))
           (new_Product "iphone" (Some 3) false)).
  - reflexivity.
  - vm_compute. reflexivity.
Defined.

(** * Further properties of the module *)

(** ** When a write is accepted *)

Lemma write_Category_iff (i : nat) (r : Category) (table table' : gmap nat Category) :
  write_Category i r table = Some table' <->
  table' = <[i := set_c_id (Some i) r]> table /\
  (forall j r', j <> i -> table !! j = Some r' -> c_slug r' <> c_slug r) /\
  is_Some (c_created_at r) /\
  (forall p, c_parent r = Some p -> p = i \/ is_Some (table !! p)).
Proof.
  unfold write_Category. cbn [unique_ok Category_unique forallb].
  set (r0 := set_c_id (Some i) r).
  assert (Huniq :
    bool_decide (map_Forall (fun _ r' => same_key [F_slug] r0 r' = false) (delete i table))
    && (bool_decide (map_Forall (fun _ r' => same_key [F_slug; F_parent] r0 r' = false)
                                (delete i table)) && true) = true
    <-> forall j r', j <> i -> table !! j = Some r' -> c_slug r' <> c_slug r).
  { rewrite !andb_true_iff, !bool_decide_eq_true. split.
    - intros (Hu & _) j r' Hji Hj Heq.
      specialize (Hu j r'). rewrite lookup_delete_ne in Hu by done.
      specialize (Hu Hj). cbn in Hu. rewrite Heq in Hu.
      rewrite bool_decide_eq_true_2 in Hu by done. done.
    - intros Hfresh.
      assert (forall j r', delete i table !! j = Some r' -> c_slug r' <> c_slug r) as Hd.
      { intros j r' Hj. apply lookup_delete_Some in Hj as [Hji Hj]. by eapply Hfresh. }
      repeat split; intros j r' Hj; cbn;
        rewrite bool_decide_eq_false_2; try done;
        intros [= Heq]; by eapply Hd. }
  assert (Hfk : fk_ok (<[i := r0]> table) (c_parent r0) = true
                <-> forall p, c_parent r = Some p -> p = i \/ is_Some (table !! p)).
  { unfold fk_ok. cbn [c_parent r0 set_c_id]. destruct (c_parent r) as [p|].
    - rewrite bool_decide_eq_true. split.
      + intros Hp q [= <-]. destruct (decide (p = i)) as [->|Hpi]; [by left|].
        rewrite lookup_insert_ne in Hp by done. by right.
      + intros Hp. destruct (Hp p eq_refl) as [->|Hsome].
        * rewrite lookup_insert_eq. eauto.
        * destruct (decide (i = p)) as [->|Hpi].
          { rewrite lookup_insert_eq. eauto. }
          by rewrite lookup_insert_ne.
    - split; [by intros _ p|done]. }
  destruct (bool_decide _ && (bool_decide _ && true)) eqn:Hu.
  - destruct (bool_decide (is_Some (c_created_at r0))) eqn:Hc.
    + apply bool_decide_eq_true in Hc.
      destruct (fk_ok _ _) eqn:Hf; cbn.
      * split; [intros [= <-]|by intros (-> & _)].
        repeat split; [by apply Huniq | done | by apply Hfk].
      * split; [done|]. intros (_ & _ & _ & Hp). apply Hfk in Hp. congruence.
    + apply bool_decide_eq_false in Hc. cbn. split; [done|]. tauto.
  - cbn. split; [done|]. intros (_ & Hfresh & _). apply Huniq in Hfresh. congruence.
Qed.

Section SaveCases.
Context {R : RandomGen}.
Variable decomp : N -> pystr.

(** The two ways [Model.save] ends. *)
Lemma Model_save_Category_Ok (self self' : Category) (w w' : World) :
  Model_save_Category (self, w) = (Ok tt, (self', w')) ->
  exists i,
    c_id self' = Some i /\
    w_categories w' = <[i := self']> (w_categories w) /\
    write_Category i self' (w_categories w) = Some (<[i := self']> (w_categories w)) /\
    (c_id self = Some i \/ c_id self = None /\ w_categories w !! i = None) /\
    c_slug self' = c_slug self /\ c_parent self' = c_parent self /\
    c_name self' = c_name self /\
    w_products w' = w_products w /\ w_random w' = w_random w.
Proof.
  destruct (Model_save_Category_unfold self w)
    as (self0 & w0 & i & seq & (Hid & Hslug & Hname & Hpar) &
        (Hr & _ & Hc & Hp & _) & Hkey & ->).
  destruct (write_Category i self0 (w_categories w)) as [t|] eqn:Hw; [|done].
  intros [= <- <-]. exists i.
  assert (Ht : t = <[i := set_c_id (Some i) self0]> (w_categories w)).
  { by apply write_Category_iff in Hw as (-> & _). }
  split; [done|]. split; [by rewrite Ht|]. split.
  { rewrite <- Ht. exact Hw. }
  split; [exact Hkey|]. repeat split; done.
Qed.

Lemma Model_save_Category_Raise (self self' : Category) (w w' : World) (e : exn) :
  Model_save_Category (self, w) = (Raise e, (self', w')) ->
  e = IntegrityError /\
  w_categories w' = w_categories w /\ w_products w' = w_products w /\
  w_random w' = w_random w /\ w_category_seq w' = w_category_seq w /\
  c_slug self' = c_slug self /\ c_id self' = c_id self /\
  c_parent self' = c_parent self /\ c_name self' = c_name self.
Proof.
  destruct (Model_save_Category_unfold self w)
    as (self0 & w0 & i & seq & (Hid & Hslug & Hname & Hpar) &
        (Hr & _ & Hc & Hp & Hs & _) & _ & ->).
  destruct (write_Category i self0 (w_categories w)); [done|].
  intros [= <- <- <-]. repeat split; done.
Qed.

(** What [Category.save] hands to [Model.save]: the instance with its slug
    settled, in a state where at most the generator has moved. *)
Lemma Category_save_settled (self : Category) (w : World) :
  exists self0 g,
    Category_save decomp (self, w) = Model_save_Category (self0, set_w_random g w) /\
    c_slug self0 <> [] /\
    c_slug self0 = c_slug (Category_save decomp (self, w)).2.1 /\
    c_id self0 = c_id self /\ c_parent self0 = c_parent self /\
    c_name self0 = c_name self /\ c_created_at self0 = c_created_at self /\
    (c_slug self <> [] -> self0 = self /\ g = w_random w).
Proof.
  pose proof (Category_save_slug_nonempty decomp self w) as Hne.
  destruct (c_slug self) as [|c s] eqn:Hs.
  - destruct (rand_slug_total (w_random w)) as (c1 & c2 & c3 & _ & _ & _ & E).
    pose proof (Category_save_falsy decomp self w _ Hs E) as Hsave.
    eexists _, _. split; [exact Hsave|].
    rewrite Hsave in Hne |- *.
    destruct (Model_save_Category_frame
                (set_c_slug (slugify decomp ([c1; c2; c3] ++ pickBetter ++ c_name self)) self)
                (set_w_random (three_draws (w_random w)) w)) as (Hslug & _).
    rewrite Hslug in Hne |- *. repeat split; done.
  - assert (Hs' : c_slug self <> []) by (by rewrite Hs).
    pose proof (Category_save_truthy decomp self w Hs') as Hsave.
    exists self, (w_random w).
    assert (Hw : set_w_random (w_random w) w = w) by (by destruct w).
    rewrite Hw. split; [exact Hsave|].
    rewrite Hsave in Hne |- *.
    destruct (Model_save_Category_frame self w) as (Hslug & _).
    rewrite Hslug in Hne |- *. repeat split; done.
Qed.
End SaveCases.

Section SaveOutcomes.
Context {R : RandomGen}.
Variable decomp : N -> pystr.

Lemma Model_save_Category_update (self : Category) (w : World) (i : nat) :
  c_id self = Some i ->
  is_Some (w_categories w !! i) ->
  Model_save_Category (self, w)
  = match write_Category i self (w_categories w) with
    | Some table' => (Ok tt, (self, set_w_categories table' w))
    | None => (Raise IntegrityError, (self, w))
    end.
Proof.
  intros Hid Hrow. unfold Model_save_Category. rewrite Hid.
  rewrite bool_decide_eq_true_2 by done. rewrite Hid.
  destruct (write_Category i self (w_categories w)); [|done].
  destruct self, w; cbn in *; by subst.
Qed.

(** The INSERT of an instance without key: one reading of the clock, the
    next key of the sequence. *)
Lemma Model_save_Category_new (self : Category) (w : World) :
  c_id self = None ->
  Model_save_Category (self, w)
  = match write_Category (next_key (w_category_seq w) (w_categories w))
            (set_c_created_at (Some (w_now w)) self) (w_categories w) with
    | Some table' =>
        (Ok tt,
         (set_c_id (Some (next_key (w_category_seq w) (w_categories w)))
            (set_c_created_at (Some (w_now w)) self),
          set_w_category_seq
            (w_category_seq w `max` next_key (w_category_seq w) (w_categories w))
            (set_w_categories table' (set_w_now (w_now w + w_latency w)%N w))))
    | None =>
        (Raise IntegrityError,
         (set_c_created_at (Some (w_now w)) self,
          set_w_now (w_now w + w_latency w)%N w))
    end.
Proof.
  intros Hid. unfold Model_save_Category, timezone_now. rewrite Hid.
  cbn [c_id set_c_created_at w_categories w_category_seq set_w_now]. rewrite Hid.
  destruct (write_Category _ _ _); reflexivity.
Qed.

Lemma Model_save_Category_new_iff (self : Category) (w : World) :
  c_id self = None ->
  (Model_save_Category (self, w)).1 = Ok tt <->
  (forall j r, w_categories w !! j = Some r -> c_slug r <> c_slug self) /\
  (forall p, c_parent self = Some p ->
             p = next_key (w_category_seq w) (w_categories w) \/
             is_Some (w_categories w !! p)).
Proof.
  intros Hid. rewrite (Model_save_Category_new self w Hid).
  set (i := next_key (w_category_seq w) (w_categories w)).
  assert (Hi : w_categories w !! i = None) by apply next_key_fresh.
  destruct (write_Category i _ (w_categories w)) as [t|] eqn:Hw; cbn [fst].
  - split; [intros _|done].
    apply write_Category_iff in Hw as (_ & Hfresh & _ & Hpar). split; [|exact Hpar].
    intros j r Hj. apply (Hfresh j r); [|done]. intros ->. congruence.
  - split; [done|]. intros [Hfresh Hpar]. exfalso.
    assert (write_Category i (set_c_created_at (Some (w_now w)) self) (w_categories w)
            = Some (<[i := set_c_id (Some i) (set_c_created_at (Some (w_now w)) self)]>
                      (w_categories w))) as Hok.
    { apply write_Category_iff. split; [done|]. split; [|split; [by eexists|exact Hpar]].
      intros j r _ Hj. by apply (Hfresh j r). }
    congruence.
Qed.

(** Whether a row is accepted depends on its slug, its parent and on
    whether it carries a creation stamp, not on the rest of it. *)
Lemma write_Category_refused (i : nat) (r1 r2 : Category) (table : gmap nat Category) :
  c_slug r2 = c_slug r1 -> c_parent r2 = c_parent r1 ->
  (is_Some (c_created_at r2) -> is_Some (c_created_at r1)) ->
  write_Category i r1 table = None -> write_Category i r2 table = None.
Proof.
  intros Hslug Hpar Hstamp Hnone.
  destruct (write_Category i r2 table) as [t|] eqn:Hw; [exfalso|done].
  apply write_Category_iff in Hw as (_ & Hfresh & Hc & Hp).
  assert (write_Category i r1 table = Some (<[i := set_c_id (Some i) r1]> table)) as Hok.
  { apply write_Category_iff. split; [done|]. rewrite <- Hslug, <- Hpar.
    split; [done|]. split; [by apply Hstamp|done]. }
  congruence.
Qed.

(** A refused [save] is refused again, as long as the table and its key
    sequence are the same. *)
Lemma Model_save_Category_Raise_again (self self' : Category) (w w' w2 : World) (e : exn) :
  Model_save_Category (self, w) = (Raise e, (self', w')) ->
  w_categories w2 = w_categories w -> w_category_seq w2 = w_category_seq w ->
  (Model_save_Category (self', w2)).1 = Raise e.
Proof.
  intros Hfail Ht Hs.
  destruct (c_id self) as [k|] eqn:Hid.
  - destruct (decide (is_Some (w_categories w !! k))) as [Hrow|Hrow].
    + rewrite (Model_save_Category_update self w k Hid Hrow) in Hfail.
      destruct (write_Category k self (w_categories w)) eqn:Hw; [done|].
      injection Hfail as <- <- <-.
      rewrite (Model_save_Category_update self w2 k Hid) by (by rewrite Ht).
      by rewrite Ht, Hw.
    + revert Hfail. unfold Model_save_Category, timezone_now. rewrite Hid, Ht.
      rewrite !bool_decide_eq_false_2 by done.
      cbn [c_id set_c_created_at w_categories set_w_now]. rewrite Hid.
      destruct (write_Category k _ (w_categories w)) eqn:Hw; [done|].
      intros [= <- <- <-]. cbn [c_id set_c_created_at]. rewrite Hid.
      rewrite !bool_decide_eq_false_2 by done.
      cbn [c_id set_c_created_at w_categories set_w_now]. rewrite Hid.
      erewrite write_Category_refused; [done| | | |exact Hw]; [done|done|].
      intros _. by eexists.
  - rewrite (Model_save_Category_new self w Hid) in Hfail.
    destruct (write_Category _ _ (w_categories w)) eqn:Hw; [done|].
    injection Hfail as <- <- <-.
    rewrite Model_save_Category_new by done. rewrite Ht, Hs.
    erewrite write_Category_refused; [done| | | |exact Hw]; [done|done|].
    intros _. by eexists.
Qed.
End SaveOutcomes.



(** X2.  A failed [Category.save] leaves both tables as they were and the
    instance with a non-empty slug, and the failure repeats: saving the
    returned instance again, in any state with the same Category table and
    key sequence, fails with the same exception, draws no random number,
    keeps the slug and leaves the table as it was. *)
Theorem Category_save_failure_repeats `{R : RandomGen} (decomp : N -> pystr)
    (self self' : Category) (w w' : World) (e : exn) :
  Category_save decomp (self, w) = (Raise e, (self', w')) ->
  w_categories w' = w_categories w /\ w_products w' = w_products w /\
  c_slug self' <> [] /\
  forall w2, w_categories w2 = w_categories w ->
             w_category_seq w2 = w_category_seq w ->
    (Category_save decomp (self', w2)).1 = Raise e /\
    c_slug (Category_save decomp (self', w2)).2.1 = c_slug self' /\
    w_random (Category_save decomp (self', w2)).2.2 = w_random w2 /\
    w_categories (Category_save decomp (self', w2)).2.2 = w_categories w2.
Proof.
  intros Hfail.
  destruct (Category_save_settled decomp self w)
    as (self0 & g & Hsave & Hne & _).
  rewrite Hsave in Hfail.
  pose proof (Model_save_Category_Raise _ _ _ _ _ Hfail)
    as (_ & Hc & Hp & _ & _ & Hslug & _).
  assert (Hne' : c_slug self' <> []) by (by rewrite Hslug).
  split; [exact Hc|]. split; [exact Hp|]. split; [exact Hne'|].
  intros w2 Ht Hs. rewrite Category_save_truthy by done.
  pose proof (Model_save_Category_Raise_again _ _ _ _ w2 _ Hfail Ht Hs) as Hagain.
  split; [exact Hagain|].
  destruct (Model_save_Category_frame self' w2) as (Hslug2 & _ & Hrandom & _).
  split; [exact Hslug2|]. split; [exact Hrandom|].
  destruct (Model_save_Category (self', w2)) as [[[]|e'] [self2 w2']] eqn:Hsave2;
    [done|].
  by apply Model_save_Category_Raise in Hsave2 as (_ & Hc2 & _).
Qed.

Lemma Category_save_failure_repeats_witness :
  (@Category_save lcg no_decomp
     ((@Category_save lcg no_decomp
         (new_Category "Android" (Some 4) "android", catalogue)).2.1,
      catalogue)).1
  = Raise IntegrityError.
Proof.
  eapply (@Category_save_failure_repeats lcg no_decomp
            (new_Category "Android" (Some 4) "android") _ catalogue _ IntegrityError);
    [vm_compute; reflexivity|reflexivity|reflexivity].
Defined.

(** X3.  A successful [Category.save] writes exactly one row, the instance
    itself under its key: a given key is kept, a new instance gets a key
    that no row had, every other row and the Product table stay as they
    were, and name and parent of the instance are not changed. *)
Theorem Category_save_writes_one_row `{R : RandomGen} (decomp : N -> pystr)
    (self self' : Category) (w w' : World) :
  Category_save decomp (self, w) = (Ok tt, (self', w')) ->
  exists i,
    c_id self' = Some i /\
    w_categories w' = <[i := self']> (w_categories w) /\
    (c_id self = Some i \/ c_id self = None /\ w_categories w !! i = None) /\
    (forall j, j <> i -> w_categories w' !! j = w_categories w !! j) /\
    w_products w' = w_products w /\
    c_name self' = c_name self /\ c_parent self' = c_parent self.
Proof.
  intros Hok.
  destruct (Category_save_settled decomp self w)
    as (self0 & g & Hsave & _ & _ & Hid0 & Hpar0 & Hname0 & _).
  rewrite Hsave in Hok.
  apply Model_save_Category_Ok in Hok
    as (i & Hid & Ht & _ & Hkey & _ & Hpar & Hname & Hprod & _).
  cbn [w_categories w_products set_w_random] in Ht, Hkey, Hprod.
  exists i. split; [done|]. split; [done|]. split.
  { rewrite <- Hid0. exact Hkey. }
  split; [intros j Hji; by rewrite Ht, lookup_insert_ne|].
  repeat split; congruence.
Qed.

Lemma Category_save_writes_one_row_witness :
  exists i,
    w_categories (@Category_save lcg no_decomp
                    (new_Category "Tablets" None "", catalogue)).2.2 !! i
    = Some (@Category_save lcg no_decomp
              (new_Category "Tablets" None "", catalogue)).2.1 /\
    w_categories catalogue !! i = None.
Proof.
  destruct (@Category_save_writes_one_row lcg no_decomp
              (new_Category "Tablets" None "")
              (@Category_save lcg no_decomp (new_Category "Tablets" None "", catalogue)).2.1
              catalogue
              (@Category_save lcg no_decomp (new_Category "Tablets" None "", catalogue)).2.2)
    as (i & _ & Htable & Hkey & _).
  { vm_compute. reflexivity. }
  exists i. split.
  - rewrite Htable. apply lookup_insert_eq.
  - destruct Hkey as [Hkey|[_ Hnone]]; [discriminate Hkey|exact Hnone].
Defined.

(** X4.  Saving again what a successful save returned, in the state it left,
    succeeds and changes nothing: neither the instance, nor the tables, nor
    the generator. *)
Theorem Category_save_twice `{R : RandomGen} (decomp : N -> pystr)
    (self self' : Category) (w w' : World) :
  Category_save decomp (self, w) = (Ok tt, (self', w')) ->
  Category_save decomp (self', w') = (Ok tt, (self', w')).
Proof.
  intros Hok.
  destruct (Category_save_settled decomp self w)
    as (self0 & g & Hsave & Hne & _).
  rewrite Hsave in Hok.
  apply Model_save_Category_Ok in Hok as (i & Hid & Ht & Hw & _ & Hslug & _).
  rewrite Category_save_truthy by (by rewrite Hslug).
  set (table := w_categories (set_w_random g w)) in *.
  rewrite (Model_save_Category_update self' _ i Hid)
    by (rewrite Ht, lookup_insert_eq; eauto).
  rewrite Ht.
  apply write_Category_iff in Hw as (_ & Hfresh & Hstamp & Hpar).
  assert (Hself : set_c_id (Some i) self' = self')
    by (destruct self'; cbn in *; by subst).
  assert (write_Category i self' (<[i := self']> table) = Some (<[i := self']> table))
    as ->.
  { apply write_Category_iff. rewrite Hself, insert_insert_eq.
    split; [done|]. split; [|split; [done|]].
    - intros j r' Hji Hj. rewrite lookup_insert_ne in Hj by done. by eapply Hfresh.
    - intros p Hp. destruct (Hpar p Hp) as [->|Hsome]; [by left|].
      destruct (decide (p = i)) as [->|Hpi]; [by left|right].
      by rewrite lookup_insert_ne. }
  rewrite <- Ht. by destruct w'.
Qed.

Lemma Category_save_twice_witness :
  let saved := @Category_save lcg no_decomp (new_Category "Tablets" None "", catalogue) in
  saved.1 = Ok tt /\
  @Category_save lcg no_decomp saved.2 = (Ok tt, saved.2).
Proof.
  cbv zeta. split; [vm_compute; reflexivity|].
  set (saved := @Category_save lcg no_decomp (new_Category "Tablets" None "", catalogue)).
  replace saved.2 with (saved.2.1, saved.2.2) by (by destruct saved.2).
  apply (@Category_save_twice lcg no_decomp (new_Category "Tablets" None "") _ catalogue).
  vm_compute. reflexivity.
Defined.

(** ** The generated slug *)

Lemma lstrip_keep (l : pystr) :
  match l with [] => True | c :: _ => is_strip_char c = false end -> lstrip l = l.
Proof. destruct l as [|c l]; [done|]. cbn. by intros ->. Qed.

Lemma lstrip_head (l l' : pystr) (c : N) :
  lstrip l = c :: l' -> is_strip_char c = false.
Proof.
  induction l as [|h t IH]; [done|]. cbn.
  destruct (is_strip_char h) eqn:Hh; [exact IH|]. by intros [= <- _].
Qed.

Lemma lstrip_suffix (l : pystr) : exists p, l = p ++ lstrip l.
Proof.
  induction l as [|h t [p Hp]]; [by exists []|]. cbn.
  destruct (is_strip_char h); [|by exists []].
  exists (h :: p). cbn. by rewrite <- Hp.
Qed.

Lemma rstrip_last (l l' : pystr) (c : N) :
  rstrip l = l' ++ [c] -> is_strip_char c = false.
Proof.
  unfold rstrip. intros Hr. apply (f_equal (@rev N)) in Hr.
  rewrite rev_involutive, rev_app_distr in Hr. cbn in Hr.
  by eapply lstrip_head.
Qed.

Lemma strip_ends (v : pystr) :
  (forall c l, strip v = c :: l -> is_strip_char c = false) /\
  (forall c l, strip v = l ++ [c] -> is_strip_char c = false).
Proof.
  unfold strip. split.
  - intros c l. apply lstrip_head.
  - intros c l Hl. destruct (lstrip_suffix (rstrip v)) as [p Hp].
    rewrite Hl, app_assoc in Hp. by eapply rstrip_last.
Qed.

Lemma Forall_lstrip (P : N -> Prop) (l : pystr) : Forall P l -> Forall P (lstrip l).
Proof.
  intros Hl. destruct (lstrip_suffix l) as [p Hp]. rewrite Hp in Hl.
  by apply Forall_app in Hl as [_ Hl].
Qed.

Lemma Forall_strip (P : N -> Prop) (l : pystr) : Forall P l -> Forall P (strip l).
Proof.
  intros Hl. unfold strip, rstrip.
  apply Forall_lstrip, Forall_rev, Forall_lstrip, Forall_rev, Hl.
Qed.

Lemma squeeze_from_slug_chars (v : pystr) :
  Forall (fun c => keep_char c = true /\ is_ascii_upper c = false) v ->
  forall b, Forall (fun c => slug_char c = true) (squeeze_from b v).
Proof.
  induction 1 as [|c v [Hk Hu] _ IH]; intros b; cbn; [constructor|].
  destruct (is_dash_or_space c) eqn:Hd.
  - destruct b; [apply IH|]. constructor; [reflexivity|apply IH].
  - constructor; [|apply IH].
    unfold slug_char, keep_char, is_dash_or_space, is_word, hyphen, underscore in *.
    destruct (is_ascii_lower c), (is_ascii_upper c), (is_digit c),
      (c =? 45)%N, (c =? 95)%N, (is_space c); cbn in *; congruence.
Qed.

Lemma lower_char_not_upper (c : N) : is_ascii_upper (lower_char c) = false.
Proof. unfold lower_char, is_ascii_upper. N_cases. Qed.

Lemma slugify_slug_chars (decomp : N -> pystr) (v : pystr) :
  Forall (fun c => slug_char c = true) (slugify decomp v).
Proof.
  unfold slugify. apply Forall_strip, squeeze_from_slug_chars.
  unfold drop_other, lower. apply List.Forall_forall. intros c Hc.
  apply filter_In in Hc as [Hc Hk]. split; [done|].
  apply in_map_iff in Hc as (c0 & <- & _). apply lower_char_not_upper.
Qed.

Lemma cleaned_token_chars (decomp : N -> pystr) (v : pystr) :
  Forall token_char v -> rstrip (cleaned decomp v) = v.
Proof.
  intros Hv.
  assert (Hclean : cleaned decomp v = v).
  { unfold cleaned, squeeze. generalize false.
    induction Hv as [|c v Hc _ IH]; intros b; [done|].
    destruct (token_char_facts c Hc) as (A & L & K & D & _).
    unfold nfkd_ascii in *. cbn. rewrite A. cbn. rewrite L, K. cbn. rewrite D.
    f_equal. apply IH. }
  rewrite Hclean. unfold rstrip.
  rewrite lstrip_keep; [apply rev_involutive|].
  apply Forall_rev in Hv. destruct (rev v) as [|c l]; [done|].
  apply Forall_inv in Hv. by destruct (token_char_facts c Hv) as (_ & _ & _ & _ & S).
Qed.

Lemma cleaned_no_ascii (decomp : N -> pystr) (v : pystr) :
  Forall (fun c => is_ascii c = false /\ List.filter is_ascii (decomp c) = []) v ->
  cleaned decomp v = [].
Proof.
  intros Hv. unfold cleaned.
  assert (nfkd_ascii decomp v = []) as ->; [|reflexivity].
  unfold nfkd_ascii. induction Hv as [|c v [Hc Hd] _ IH]; [done|].
  cbn. by rewrite Hc, Hd, IH.
Qed.

Section GeneratedSlug.
Context {R : RandomGen}.
Variable decomp : N -> pystr.

(** The slug that a save assigns to a Category without slug. *)
Lemma Category_save_generated (self : Category) (w : World) :
  c_slug self = [] ->
  exists c1 c2 c3,
    token_char c1 /\ token_char c2 /\ token_char c3 /\
    (rand_slug (w_random w)).1 = Ok [c1; c2; c3] /\
    c_slug (Category_save decomp (self, w)).2.1
    = slugify decomp ([c1; c2; c3] ++ pickBetter ++ c_name self) /\
    c_slug (Category_save decomp (self, w)).2.1
    = [c1; c2; c3] ++ pickbetter ++ rstrip (cleaned decomp (c_name self)).
Proof.
  intros Hs.
  destruct (rand_slug_total (w_random w)) as (c1 & c2 & c3 & H1 & H2 & H3 & E).
  exists c1, c2, c3. rewrite E.
  assert (Hslug : c_slug (Category_save decomp (self, w)).2.1
                  = slugify decomp ([c1; c2; c3] ++ pickBetter ++ c_name self)).
  { rewrite (Category_save_falsy decomp self w _ Hs E).
    by destruct (Model_save_Category_frame
              (set_c_slug (slugify decomp ([c1; c2; c3] ++ pickBetter ++ c_name self)) self)
              (set_w_random (three_draws (w_random w)) w)) as (-> & _). }
  repeat split; try done.
  rewrite Hslug. by apply slugify_token_infix.
Qed.
End GeneratedSlug.

(** X5.  For a name made of lowercase ASCII letters and digits only, the
    generated slug is the token, "-pickbetter" and the name itself, so it is
    14 characters longer than the name: nothing shortens it to the 250
    characters of [max_length]. *)
Theorem Category_save_slug_of_plain_name `{R : RandomGen} (decomp : N -> pystr)
    (self : Category) (w : World) :
  c_slug self = [] ->
  Forall (fun c => is_ascii_lower c || is_digit c = true) (c_name self) ->
  exists token : pystr,
    (rand_slug (w_random w)).1 = Ok token /\
    c_slug (Category_save decomp (self, w)).2.1
    = token ++ pystr_of_string "-pickbetter" ++ c_name self /\
    length (c_slug (Category_save decomp (self, w)).2.1) = length (c_name self) + 14 /\
    (236 < length (c_name self) ->
     250 < length (c_slug (Category_save decomp (self, w)).2.1)).
Proof.
  intros Hs Hname.
  destruct (Category_save_generated decomp self w Hs)
    as (c1 & c2 & c3 & _ & _ & _ & Htok & _ & Hslug).
  exists [c1; c2; c3]. split; [exact Htok|].
  rewrite Hslug, (cleaned_token_chars decomp (c_name self) Hname).
  split; [reflexivity|]. cbn [app length]. rewrite length_app. cbn. lia.
Qed.

Lemma Category_save_slug_of_plain_name_witness :
  c_slug (new_Category "phones" None "") = [] /\
  c_slug (@Category_save lcg no_decomp (new_Category "phones" None "", world0)).2.1
  = pystr_of_string "bff-pickbetterphones".
Proof.
  split; [reflexivity|].
  destruct (@Category_save_slug_of_plain_name lcg no_decomp
              (new_Category "phones" None "") world0 eq_refl)
    as (token & Htok & Hslug & _).
  { repeat constructor. }
  vm_compute in Htok. injection Htok as <-. exact Hslug.
Defined.

(** X6.  For a name without any ASCII content (no code point is ASCII and
    no decomposition contains an ASCII code point, as for a name in
    Cyrillic), the generated slug is the token and "-pickbetter" alone:
    nothing of the name is in it. *)
Theorem Category_save_slug_of_non_ascii_name `{R : RandomGen} (decomp : N -> pystr)
    (self : Category) (w : World) :
  c_slug self = [] ->
  Forall (fun c => is_ascii c = false /\ List.filter is_ascii (decomp c) = [])
         (c_name self) ->
  exists token : pystr,
    (rand_slug (w_random w)).1 = Ok token /\
    slugify decomp (c_name self) = [] /\
    c_slug (Category_save decomp (self, w)).2.1
    = token ++ pystr_of_string "-pickbetter".
Proof.
  intros Hs Hname.
  destruct (Category_save_generated decomp self w Hs)
    as (c1 & c2 & c3 & _ & _ & _ & Htok & _ & Hslug).
  exists [c1; c2; c3]. split; [exact Htok|].
  pose proof (cleaned_no_ascii decomp (c_name self) Hname) as Hclean.
  split.
  - change (slugify decomp (c_name self))
      with (strip (cleaned decomp (c_name self))). by rewrite Hclean.
  - rewrite Hslug, Hclean. reflexivity.
Qed.

Lemma Category_save_slug_of_non_ascii_name_witness :
  let kategoriya := [1050; 1072; 1090; 1077; 1075; 1086; 1088; 1080; 1103]%N in
  let self := {| c_id := None; c_name := kategoriya; c_parent := None;
                 c_slug := []; c_created_at := None |} in
  c_slug (@Category_save lcg no_decomp (self, world0)).2.1
  = pystr_of_string "bff-pickbetter".
Proof.
  cbv zeta.
  match goal with |- c_slug (Category_save _ (?s, _)).2.1 = _ =>
    destruct (@Category_save_slug_of_non_ascii_name lcg no_decomp s world0 eq_refl)
      as (token & Htok & _ & Hslug)
  end.
  { repeat constructor. }
  vm_compute in Htok. injection Htok as <-. exact Hslug.
Defined.

(** X7.  Whatever the name, a generated slug is made of lowercase ASCII
    letters, digits, hyphens and underscores only, and it neither starts
    nor ends with a hyphen or an underscore. *)
Theorem Category_save_slug_is_wellformed `{R : RandomGen} (decomp : N -> pystr)
    (self : Category) (w : World) :
  c_slug self = [] ->
  let slug := c_slug (Category_save decomp (self, w)).2.1 in
  Forall (fun c => is_ascii_lower c = true \/ is_digit c = true \/
                   c = 45%N \/ c = 95%N) slug /\
  (forall c rest, slug = c :: rest -> c <> 45%N /\ c <> 95%N) /\
  (forall c front, slug = front ++ [c] -> c <> 45%N /\ c <> 95%N).
Proof.
  intros Hs slug. subst slug.
  destruct (Category_save_generated decomp self w Hs)
    as (c1 & c2 & c3 & _ & _ & _ & _ & Hslug & _).
  rewrite Hslug.
  assert (Hstrip : forall c, is_strip_char c = false -> c <> 45%N /\ c <> 95%N).
  { intros c Hc. unfold is_strip_char, hyphen, underscore in Hc.
    split; intros ->; discriminate Hc. }
  destruct (strip_ends (cleaned decomp ([c1; c2; c3] ++ pickBetter ++ c_name self)))
    as [Hhead Hlast].
  split; [|split].
  - eapply Forall_impl; [apply slugify_slug_chars|].
    intros c Hc. unfold slug_char, hyphen, underscore in Hc.
    destruct (is_ascii_lower c); [by left|].
    destruct (is_digit c); [by right; left|].
    destruct (N.eqb_spec c 45); [by right; right; left|].
    destruct (N.eqb_spec c 95); [by right; right; right|]. discriminate Hc.
  - intros c rest Heq. by eapply Hstrip, Hhead.
  - intros c front Heq. by eapply Hstrip, Hlast.
Qed.

Lemma Category_save_slug_is_wellformed_witness :
  c_slug (new_Category "  Smart_Phones & More -- " None "") = [] /\
  c_slug (@Category_save lcg no_decomp
            (new_Category "  Smart_Phones & More -- " None "", world0)).2.1
  = pystr_of_string "bff-pickbetter-smart_phones-more" /\
  Forall (fun c => is_ascii_lower c = true \/ is_digit c = true \/
                   c = 45%N \/ c = 95%N)
         (c_slug (@Category_save lcg no_decomp
                    (new_Category "  Smart_Phones & More -- " None "", world0)).2.1).
Proof.
  split; [reflexivity|]. split; [vm_compute; reflexivity|].
  exact (proj1 (@Category_save_slug_is_wellformed lcg no_decomp
                  (new_Category "  Smart_Phones & More -- " None "") world0 eq_refl)).
Defined.

(** ** Invariants of the stored rows *)

Lemma write_Product_iff (k : nat) (q : Product) (categories : gmap nat Category)
    (table table' : gmap nat Product) :
  write_Product k q categories table = Some table' <->
  table' = <[k := set_p_id (Some k) q]> table /\
  (exists c, p_category q = Some c /\ is_Some (categories !! c)) /\
  is_Some (p_created_at q) /\ is_Some (p_updated_at q).
Proof.
  unfold write_Product. cbn [p_category p_created_at p_updated_at set_p_id].
  destruct (p_category q) as [c|]; cbn.
  - destruct (bool_decide (is_Some (categories !! c))) eqn:Hc; cbn.
    + apply bool_decide_eq_true in Hc.
      destruct (bool_decide (is_Some (p_created_at q))) eqn:H1; cbn.
      * apply bool_decide_eq_true in H1.
        destruct (bool_decide (is_Some (p_updated_at q))) eqn:H2; cbn.
        -- apply bool_decide_eq_true in H2. split; [intros [= <-]|by intros (-> & _)].
           repeat split; eauto.
        -- apply bool_decide_eq_false in H2. split; [done|tauto].
      * apply bool_decide_eq_false in H1. split; [done|tauto].
    + apply bool_decide_eq_false in Hc. split; [done|].
      intros (_ & (c' & [= <-] & Hsome) & _). done.
  - split; [done|]. by intros (_ & (c & ? & _) & _).
Qed.

Section RowFacts.
Context {R : RandomGen}.
Variable decomp : N -> pystr.

(** An operation removes rows of the Category table, or writes one row that
    carries its key, a time stamp and a slug. *)
Lemma run_op_categories_row (o : op) (w : World) :
  w_categories (run_op decomp o w) ⊆ w_categories w \/
  exists i r,
    w_categories (run_op decomp o w) = <[i := r]> (w_categories w) /\
    c_id r = Some i /\ is_Some (c_created_at r) /\ c_slug r <> [].
Proof.
  destruct o as [c|c|p|p|dt|d]; cbn [run_op].
  - destruct (Category_save_settled decomp c w) as (c0 & g & Hsave & Hne & _).
    rewrite Hsave.
    destruct (Model_save_Category (c0, set_w_random g w)) as [[[]|e] [c' w']] eqn:Hm.
    + apply Model_save_Category_Ok in Hm as (i & Hid & Ht & Hw & _ & Hslug & _).
      right. exists i, c'. cbn [fst snd]. split; [exact Ht|]. split; [done|].
      apply write_Category_iff in Hw as (_ & _ & Hstamp & _).
      split; [done|]. by rewrite Hslug.
    + apply Model_save_Category_Raise in Hm as (_ & Ht & _). left.
      cbn [fst snd]. by rewrite Ht.
  - left. unfold Category_delete. destruct (c_id c); [|done].
    cbn. apply map_filter_subseteq.
  - left. by destruct (Model_save_Product_frame p w) as (-> & _).
  - left. unfold Product_delete. destruct (p_id p); done.
  - by left.
  - by left.
Qed.

Lemma run_op_products_row (o : op) (w : World) :
  w_products (run_op decomp o w) ⊆ w_products w \/
  exists k q,
    w_products (run_op decomp o w) = <[k := q]> (w_products w) /\
    p_id q = Some k /\ is_Some (p_created_at q) /\ is_Some (p_updated_at q).
Proof.
  destruct o as [c|c|p|p|dt|d]; cbn [run_op].
  - left. destruct (Category_save_as_Model_save decomp c w) as (c0 & w0 & -> & _ & Hp & _).
    destruct (Model_save_Category_frame c0 w0) as (_ & _ & _ & _ & ->). by rewrite Hp.
  - left. unfold Category_delete. destruct (c_id c); [|done].
    cbn. apply map_filter_subseteq.
  - destruct (Model_save_Product_unfold p w)
      as (p0 & w0 & _ & (_ & _ & _ & Hprod & _) &
          [[_ ->]|(_ & _ & k & seq & _ & ->)]).
    { left. cbn [fst snd]. by rewrite Hprod. }
    destruct (write_Product k p0 (w_categories w) (w_products w)) as [t|] eqn:Hw;
      [|left; cbn [fst snd]; by rewrite Hprod].
    apply write_Product_iff in Hw as (-> & _ & H1 & H2).
    right. by exists k, (set_p_id (Some k) p0).
  - left. unfold Product_delete. destruct (p_id p); [|done].
    cbn. apply delete_subseteq.
  - by left.
  - by left.
Qed.

Lemma run_op_rows_keyed (o : op) (w : World) :
  rows_keyed w -> rows_keyed (run_op decomp o w).
Proof.
  intros [Hc Hp]. split.
  - intros i r Hi.
    destruct (run_op_categories_row o w) as [Hsub|(k & r' & Ht & Hid & Hstamp & _)].
    + eapply Hc, lookup_weaken; done.
    + rewrite Ht in Hi. destruct (decide (k = i)) as [->|Hki].
      * rewrite lookup_insert_eq in Hi. by injection Hi as <-.
      * rewrite lookup_insert_ne in Hi by done. by apply Hc.
  - intros i q Hi.
    destruct (run_op_products_row o w) as [Hsub|(k & q' & Ht & Hid & H1 & H2)].
    + eapply Hp, lookup_weaken; done.
    + rewrite Ht in Hi. destruct (decide (k = i)) as [->|Hki].
      * rewrite lookup_insert_eq in Hi. by injection Hi as <-.
      * rewrite lookup_insert_ne in Hi by done. by apply Hp.
Qed.

Lemma run_op_slugs_nonempty (o : op) (w : World) :
  slugs_nonempty (w_categories w) -> slugs_nonempty (w_categories (run_op decomp o w)).
Proof.
  intros Hinv i r Hi.
  destruct (run_op_categories_row o w) as [Hsub|(k & r' & Ht & _ & _ & Hne)].
  - eapply Hinv, lookup_weaken; done.
  - rewrite Ht in Hi. destruct (decide (k = i)) as [->|Hki].
    + rewrite lookup_insert_eq in Hi. by injection Hi as <-.
    + rewrite lookup_insert_ne in Hi by done. by eapply Hinv.
Qed.

Lemma empty_world_rows_keyed (g : rng) (now : N) : rows_keyed (empty_world g now).
Proof. split; [intros i r Hi | intros k q Hk]; cbn in *; by rewrite lookup_empty in *. Qed.
End RowFacts.

(** X8.  No stored Category has an empty slug: every operation keeps this
    true, so it holds after any history that starts from the empty
    database, also for Categories that were saved without a slug. *)
Theorem stored_slugs_are_nonempty `{R : RandomGen} (decomp : N -> pystr) :
  (forall (o : op) (w : World),
     slugs_nonempty (w_categories w) ->
     slugs_nonempty (w_categories (run_op decomp o w))) /\
  (forall (ops : list op) (g : rng) (now : N) (i : nat) (r : Category),
     w_categories (run_ops decomp ops (empty_world g now)) !! i = Some r ->
     c_slug r <> []).
Proof.
  split; [apply run_op_slugs_nonempty|].
  intros ops g now.
  apply (run_ops_invariant decomp (fun w => slugs_nonempty (w_categories w))).
  - apply run_op_slugs_nonempty.
  - intros i r Hi. cbn in Hi. by rewrite lookup_empty in Hi.
Qed.

Lemma stored_slugs_are_nonempty_witness :
  exists r, w_categories (@run_ops lcg no_decomp
                            [SaveCategory (new_Category "Phones" None "")] world0) !! 1
            = Some r /\ c_slug r <> [].
Proof.
  eexists. split; [vm_compute; reflexivity|].
  apply (proj2 (@stored_slugs_are_nonempty lcg no_decomp)
           [SaveCategory (new_Category "Phones" None "")] 42%N 1000%N 1).
  vm_compute. reflexivity.
Defined.

(** X9.  Every stored row, Category or Product, carries the key it is
    stored under and has its time stamps set: every operation keeps this
    true, so it holds after any history that starts from the empty
    database. *)
Theorem stored_rows_are_keyed `{R : RandomGen} (decomp : N -> pystr) :
  (forall (o : op) (w : World), rows_keyed w -> rows_keyed (run_op decomp o w)) /\
  (forall (ops : list op) (g : rng) (now : N),
     rows_keyed (run_ops decomp ops (empty_world g now))).
Proof.
  split; [apply run_op_rows_keyed|].
  intros ops g now. apply (run_ops_invariant decomp rows_keyed).
  - apply run_op_rows_keyed.
  - apply empty_world_rows_keyed.
Qed.

Lemma stored_rows_are_keyed_witness : rows_keyed shop.
Proof. apply (proj2 (@stored_rows_are_keyed lcg no_decomp) shop_history 42%N 1000%N). Defined.

(** X10.  Referential integrity: every [parent] of a stored Category and
    every [category] of a stored Product is the key of a stored Category.
    Every operation keeps this true (saves are checked, deletions cascade),
    so it holds after any history that starts from the empty database. *)
Theorem stored_references_are_valid `{R : RandomGen} (decomp : N -> pystr) :
  (forall (o : op) (w : World),
     referential_integrity w -> referential_integrity (run_op decomp o w)) /\
  (forall (ops : list op) (g : rng) (now : N),
     referential_integrity (run_ops decomp ops (empty_world g now))).
Proof.
  split; [apply run_op_referential_integrity|].
  intros ops g now. apply (run_ops_invariant decomp referential_integrity).
  - apply run_op_referential_integrity.
  - split; [intros j r p Hj | intros k q Hk]; cbn in *;
      by rewrite lookup_empty in *.
Qed.

Lemma stored_references_are_valid_witness : referential_integrity shop.
Proof.
  apply (proj2 (@stored_references_are_valid lcg no_decomp) shop_history 42%N 1000%N).
Defined.

(** ** More on [Category.__str__] *)

Lemma Category_str_loop_stored_no_raise (table : gmap nat Category) :
  (forall j r p, table !! j = Some r -> c_parent r = Some p -> is_Some (table !! p)) ->
  forall (fuel : nat) (full_path : list pystr) (j : nat) (k : Category) (e : exn),
    table !! j = Some k ->
    Category_str_loop fuel table full_path (Some k) <> Raises e.
Proof.
  intros Hint. induction fuel as [|fuel IH]; intros full_path j k e Hk; [done|].
  cbn [Category_str_loop]. unfold get_parent.
  destruct (c_parent k) as [p|] eqn:Hp.
  - destruct (Hint j k p Hk Hp) as [row Hrow]. rewrite Hrow. by eapply IH.
  - by destruct fuel.
Qed.

Lemma Category_str_loop_self_parent (table : gmap nat Category) (i : nat)
    (self : Category) :
  table !! i = Some self -> c_parent self = Some i ->
  forall (fuel : nat) (full_path : list pystr),
    Category_str_loop fuel table full_path (Some self) = OutOfFuel.
Proof.
  intros Hrow Hpar. induction fuel as [|fuel IH]; intros full_path; [done|].
  cbn [Category_str_loop]. unfold get_parent. rewrite Hpar, Hrow. apply IH.
Qed.

(** X11.  In a state with referential integrity, [__str__] raises exactly
    when the parent key of the instance itself is not stored, and the
    exception is then [DoesNotExist]; for a stored Category, or an instance
    whose parent is stored, it never raises. *)
Theorem Category_str_raises_iff `{R : RandomGen} (w : World) (self : Category) :
  referential_integrity w ->
  forall fuel : nat,
    ((exists e, Category_str fuel (w_categories w) self = Raises e) <->
     (exists p, c_parent self = Some p /\ w_categories w !! p = None)) /\
    (forall e, Category_str fuel (w_categories w) self = Raises e -> e = DoesNotExist).
Proof.
  intros [Hint _] fuel. unfold Category_str, get_parent.
  destruct (c_parent self) as [p|] eqn:Hp.
  - destruct (w_categories w !! p) as [row|] eqn:Hrow.
    + split; [split|].
      * intros [e He]. by eapply Category_str_loop_stored_no_raise in He.
      * intros (q & [= <-] & Hnone). congruence.
      * intros e He. by eapply Category_str_loop_stored_no_raise in He.
    + split; [split|]; [by exists p | by exists DoesNotExist | by intros e [= <-]].
  - split; [split|].
    + intros [e He]. by destruct fuel.
    + by intros (q & ? & _).
    + intros e He. by destruct fuel.
Qed.

Lemma Category_str_raises_iff_witness :
  referential_integrity shop /\
  Category_str 3 (w_categories shop) (new_Category "Ghost" (Some 99) "ghost")
  = Raises DoesNotExist.
Proof.
  assert (Hint : referential_integrity shop).
  { apply (run_ops_invariant no_decomp referential_integrity).
    - apply run_op_referential_integrity.
    - split; [intros j r p Hj | intros k q Hk]; cbn in *;
        by rewrite lookup_empty in *. }
  split; [exact Hint|].
  destruct (@Category_str_raises_iff lcg shop
              (new_Category "Ghost" (Some 99) "ghost") Hint 3) as [[_ Hraise] Hexn].
  destruct Hraise as [e He].
  { exists 99. split; [reflexivity|vm_compute; reflexivity]. }
  rewrite He. f_equal. by apply Hexn.
Defined.

(** X12.  Nothing in [save] guards against cycles: in a state whose rows are
    keyed and whose slugs are unique and non-empty, saving a stored
    Category with itself as parent succeeds and stores it; from then on
    [__str__] of that Category never returns, whatever the number of
    iterations allowed. *)
Theorem Category_save_accepts_self_parent `{R : RandomGen} (decomp : N -> pystr)
    (w : World) (i : nat) (r : Category) :
  rows_keyed w ->
  slug_unique (w_categories w) ->
  slugs_nonempty (w_categories w) ->
  w_categories w !! i = Some r ->
  let self := set_c_parent (Some i) r in
  Category_save decomp (self, w)
  = (Ok tt, (self, set_w_categories (<[i := self]> (w_categories w)) w)) /\
  forall fuel : nat,
    Category_str fuel (<[i := self]> (w_categories w)) self = OutOfFuel.
Proof.
  intros [Hkeyed _] Huniq Hne Hrow self.
  destruct (Hkeyed i r Hrow) as [Hid Hstamp].
  assert (Hself : set_c_id (Some i) self = self).
  { subst self. destruct r; cbn in *; by subst. }
  split.
  - rewrite Category_save_truthy by (by apply (Hne i r)).
    rewrite (Model_save_Category_update self w i) by (subst self; cbn; eauto).
    assert (write_Category i self (w_categories w)
            = Some (<[i := self]> (w_categories w))) as ->; [|reflexivity].
    apply write_Category_iff. rewrite Hself. split; [done|].
    split; [|split; [done|]].
    + intros j r' Hji Hj Heq. apply Hji. by eapply (Huniq j i r' r).
    + intros p [= <-]. by left.
  - intros fuel. unfold Category_str, get_parent. cbn [c_parent self set_c_parent].
    rewrite lookup_insert_eq.
    apply (Category_str_loop_self_parent _ i); [apply lookup_insert_eq|done].
Qed.

Lemma Category_save_accepts_self_parent_witness :
  let self := set_c_parent (Some 1) (stored 1 (new_Category "Phones" None "phones")) in
  (@Category_save lcg no_decomp (self, catalogue)).1 = Ok tt /\
  forall fuel : nat,
    Category_str fuel (<[1 := self]> (w_categories catalogue)) self = OutOfFuel.
Proof.
  cbv zeta.
  destruct (@Category_save_accepts_self_parent lcg no_decomp catalogue 1
              (stored 1 (new_Category "Phones" None "phones"))) as [Hsave Hloop].
  - apply (run_ops_invariant no_decomp rows_keyed).
    + apply run_op_rows_keyed.
    + apply empty_world_rows_keyed.
  - apply (run_ops_invariant no_decomp (fun w => slug_unique (w_categories w))).
    + apply run_op_slug_unique.
    + intros ? ? ? ? Hempty. cbn in Hempty. by rewrite lookup_empty in Hempty.
  - apply (run_ops_invariant no_decomp (fun w => slugs_nonempty (w_categories w))).
    + apply run_op_slugs_nonempty.
    + intros ? ? Hempty. cbn in Hempty. by rewrite lookup_empty in Hempty.
  - vm_compute. reflexivity.
  - split; [by rewrite Hsave|exact Hloop].
Defined.

(** ** More on the query sets *)

Lemma insert_by_Sorted {A} (le : A -> A -> bool) (x : A) (l : list A) :
  (forall a b, le a b = false -> le b a = true) ->
  Sorted (fun a b => le a b = true) l ->
  Sorted (fun a b => le a b = true) (insert_by le x l).
Proof.
  intros Htotal. induction 1 as [|y l Hl IH Hhd]; cbn.
  - by repeat constructor.
  - destruct (le x y) eqn:Hxy.
    + constructor; [by constructor|by constructor].
    + constructor; [exact IH|].
      destruct l as [|z l]; cbn.
      * constructor. by apply Htotal.
      * destruct (le x z); constructor; [by apply Htotal|by inversion Hhd].
Qed.

Lemma sort_by_Sorted {A} (le : A -> A -> bool) (l : list A) :
  (forall a b, le a b = false -> le b a = true) ->
  Sorted (fun a b => le a b = true) (sort_by le l).
Proof.
  intros Htotal. induction l as [|x l IH]; cbn; [constructor|].
  by apply insert_by_Sorted.
Qed.

Lemma qs_where_filters (conds : list (Product -> bool)) (qs : QuerySet) :
  qs_where (QuerySet_filters conds qs) = qs_where qs ++ conds.
Proof.
  unfold QuerySet_filters. revert qs.
  induction conds as [|cond conds IH]; intros qs; cbn.
  - by rewrite app_nil_r.
  - rewrite IH. cbn. by rewrite <- app_assoc.
Qed.

Section MoreQueryFacts.
Context {R : RandomGen}.
Variable collate_le : pystr -> pystr -> bool.

Lemma elem_of_evaluate (qs : QuerySet) (w : World) (p : Product) :
  p ∈ evaluate collate_le qs w <->
  (exists k, w_products w !! k = Some p) /\
  Forall (fun cond => cond p = true) (qs_where qs).
Proof.
  unfold evaluate. rewrite sort_by_perm, list_elem_of_filter, list_elem_of_fmap.
  rewrite forallb_forall, List.Forall_forall. split.
  - intros [Hconds ([k q] & -> & Hin)]. split; [|done].
    exists k. by apply elem_of_map_to_list.
  - intros [[k Hk] Hconds]. split; [done|].
    exists (k, p). split; [done|]. by apply elem_of_map_to_list.
Qed.
End MoreQueryFacts.

(** X13.  Both managers return their Products ordered by title: with a
    collation that is total and transitive, every Product in a result comes
    before all the later ones. *)
Theorem queries_are_ordered_by_title `{R : RandomGen}
    (collate_le : pystr -> pystr -> bool) (w : World) :
  (forall a b, collate_le a b = false -> collate_le b a = true) ->
  (forall a b c, collate_le a b = true -> collate_le b c = true ->
                 collate_le a c = true) ->
  StronglySorted (fun p q => collate_le (p_title p) (p_title q) = true)
                 (Product_objects collate_le w) /\
  StronglySorted (fun p q => collate_le (p_title p) (p_title q) = true)
                 (ProductProxy_objects collate_le w).
Proof.
  intros Htotal Htrans.
  assert (Hsorted : forall qs,
            StronglySorted (fun p q => collate_le (p_title p) (p_title q) = true)
                           (evaluate collate_le qs w)).
  { intros qs. apply Sorted_StronglySorted.
    - intros p q r Hpq Hqr. by eapply Htrans.
    - unfold evaluate.
      apply (sort_by_Sorted (fun p q => collate_le (p_title p) (p_title q))).
      intros p q. apply Htotal. }
  split; apply Hsorted.
Qed.

Lemma lex_le_total (a b : pystr) : lex_le a b = false -> lex_le b a = true.
Proof.
  revert b. induction a as [|x a IH]; intros [|y b]; cbn; try done.
  destruct (N.ltb_spec x y); [done|].
  destruct (N.ltb_spec y x); [done|]. apply IH.
Qed.

Lemma lex_le_trans (a b c : pystr) :
  lex_le a b = true -> lex_le b c = true -> lex_le a c = true.
Proof.
  revert b c. induction a as [|x a IH]; intros [|y b] [|z c]; cbn; try done.
  destruct (N.ltb_spec x y) as [Hxy|Hxy].
  - intros _. destruct (N.ltb_spec y z) as [Hyz|Hyz].
    + intros _. by rewrite (proj2 (N.ltb_lt x z)) by lia.
    + destruct (N.ltb_spec z y); [done|].
      intros _. by rewrite (proj2 (N.ltb_lt x z)) by lia.
  - destruct (N.ltb_spec y x); [done|]. assert (x = y) as -> by lia.
    intros Hab. destruct (N.ltb_spec y z) as [Hyz|Hyz]; [done|].
    destruct (N.ltb_spec z y); [done|]. by apply IH.
Qed.

Lemma queries_are_ordered_by_title_witness :
  StronglySorted (fun p q => lex_le (p_title p) (p_title q) = true)
                 (@Product_objects lcg lex_le shop) /\
  map p_title (@Product_objects lcg lex_le shop)
  = [pystr_of_string "macbook"; pystr_of_string "pixel"].
Proof.
  split; [|vm_compute; reflexivity].
  exact (proj1 (@queries_are_ordered_by_title lcg lex_le shop
                  lex_le_total lex_le_trans)).
Defined.

(** X14.  Narrowing the proxy manager's query set with further [filter]
    calls never brings an unavailable Product back: the result holds exactly
    the Products of the proxy's default query that satisfy every added
    condition. *)
Theorem ProductProxy_filters_stay_available `{R : RandomGen}
    (collate_le : pystr -> pystr -> bool) (conds : list (Product -> bool))
    (w : World) (p : Product) :
  p ∈ evaluate collate_le (QuerySet_filters conds ProductManager_get_queryset) w <->
  p ∈ ProductProxy_objects collate_le w /\
  Forall (fun cond => cond p = true) conds.
Proof.
  unfold ProductProxy_objects. rewrite !elem_of_evaluate, qs_where_filters.
  rewrite Forall_app. tauto.
Qed.

(** X15.  After a Category is deleted, the base query returns exactly the
    Products it returned before whose category is neither the deleted
    Category nor one of its descendants. *)
Theorem Category_delete_hides_its_products `{R : RandomGen}
    (collate_le : pystr -> pystr -> bool) (self : Category) (i : nat)
    (w : World) (p : Product) :
  c_id self = Some i ->
  p ∈ Product_objects collate_le (Category_delete (self, w)).2.2 <->
  p ∈ Product_objects collate_le w /\
  forall c, p_category p = Some c -> c <> i /\ ~ descendant (w_categories w) i c.
Proof.
  intros Hid.
  destruct (Category_delete_tables self i w Hid) as (_ & _ & Hp).
  rewrite !elem_of_Product_objects. split.
  - intros [k Hk]. apply Hp in Hk as [Hk Hno]. eauto.
  - intros [[k Hk] Hno]. exists k. by apply Hp.
Qed.

Lemma Category_delete_hides_its_products_witness :
  map p_title (@Product_objects lcg lex_le shop)
  = [pystr_of_string "macbook"; pystr_of_string "pixel"] /\
  map p_title
      (@Product_objects lcg lex_le
         (@Category_delete lcg (stored 4 (new_Category "Laptops" None "laptops"), shop)).2.2)
  = [pystr_of_string "pixel"] /\
  forall p,
    p ∈ @Product_objects lcg lex_le
          (@Category_delete lcg (stored 4 (new_Category "Laptops" None "laptops"), shop)).2.2 ->
    p_category p <> Some 4.
Proof.
  split; [vm_compute; reflexivity|]. split; [vm_compute; reflexivity|].
  intros p Hp Hcat.
  apply (@Category_delete_hides_its_products lcg lex_le
           (stored 4 (new_Category "Laptops" None "laptops")) 4 shop p eq_refl) in Hp
    as [_ Hno].
  by destruct (Hno 4 Hcat).
Defined.

(** ** Saving Products *)

Section ProductSaveFacts.
Context {R : RandomGen}.

(** The INSERT of a Product without key: the price is prepared first, then
    the clock is read twice. *)
Lemma Model_save_Product_new (p : Product) (w : World) :
  p_id p = None ->
  Model_save_Product (p, w)
  = if price_fits p then
      let p0 := set_p_updated_at (Some (w_now w + w_latency w)%N)
                  (set_p_created_at (Some (w_now w)) p) in
      let k := next_key (w_product_seq w) (w_products w) in
      let w0 := set_w_now (w_now w + w_latency w + w_latency w)%N w in
      match write_Product k p0 (w_categories w) (w_products w) with
      | Some table' =>
          (Ok tt, (set_p_id (Some k) p0,
                   set_w_product_seq (w_product_seq w `max` k)
                     (set_w_products table' w0)))
      | None => (Raise IntegrityError, (p0, w0))
      end
    else (Raise InvalidOperation, (p, w)).
Proof.
  intros Hid. unfold Model_save_Product, INSERT_Product, timezone_now. rewrite Hid.
  destruct (price_fits p); [|done].
  cbn [w_now w_latency set_w_now w_categories w_products w_product_seq].
  destruct (write_Product _ _ _ _); reflexivity.
Qed.

(** The UPDATE of a stored Product: one reading of the clock. *)
Lemma Model_save_Product_update (p : Product) (w : World) (k : nat) :
  p_id p = Some k -> is_Some (w_products w !! k) ->
  Model_save_Product (p, w)
  = let p0 := set_p_updated_at (Some (w_now w)) p in
    let w0 := set_w_now (w_now w + w_latency w)%N w in
    if price_fits p then
      match write_Product k p0 (w_categories w) (w_products w) with
      | Some table' => (Ok tt, (set_p_id (Some k) p0, set_w_products table' w0))
      | None => (Raise IntegrityError, (p0, w0))
      end
    else (Raise InvalidOperation, (p0, w0)).
Proof.
  intros Hid Hrow. unfold Model_save_Product, timezone_now. rewrite Hid.
  change (price_fits (set_p_updated_at (Some (w_now w)) p)) with (price_fits p).
  cbn [w_products set_w_now w_categories].
  rewrite bool_decide_eq_true_2 by done. reflexivity.
Qed.
End ProductSaveFacts.

(** X16.  Saving a new Product.  A price of more than ten digits makes the
    save raise [decimal.InvalidOperation] before the clock is read or a
    statement is sent: nothing changes.  With a price that fits, the save
    succeeds exactly when the category of the Product is the key of a stored
    Category; otherwise it raises [IntegrityError] and leaves both tables as
    they were. *)
Theorem Product_save_new_succeeds_iff `{R : RandomGen} (p : Product) (w : World) :
  p_id p = None ->
  (price_fits p = false ->
   Model_save_Product (p, w) = (Raise InvalidOperation, (p, w))) /\
  (price_fits p = true ->
   ((Model_save_Product (p, w)).1 = Ok tt <->
    exists c, p_category p = Some c /\ is_Some (w_categories w !! c)) /\
   ((Model_save_Product (p, w)).1 <> Ok tt ->
    (Model_save_Product (p, w)).1 = Raise IntegrityError /\
    w_products (Model_save_Product (p, w)).2.2 = w_products w /\
    w_categories (Model_save_Product (p, w)).2.2 = w_categories w)).
Proof.
  intros Hid. rewrite (Model_save_Product_new p w Hid). cbv zeta.
  split; intros Hprice; rewrite Hprice; [done|].
  set (p0 := set_p_updated_at _ _). set (k := next_key _ _).
  destruct (write_Product k p0 (w_categories w) (w_products w)) as [t|] eqn:Hw;
    cbn [fst snd].
  - split; [|done]. split; [intros _|done].
    by apply write_Product_iff in Hw as (_ & Hcat & _).
  - split; [|done]. split; [done|]. intros Hcat. exfalso.
    assert (write_Product k p0 (w_categories w) (w_products w)
            = Some (<[k := set_p_id (Some k) p0]> (w_products w))) as Hok.
    { apply write_Product_iff. repeat split; [exact Hcat|by eexists..]. }
    congruence.
Qed.

Lemma Product_save_new_succeeds_iff_witness :
  p_id (new_Product "ghost" (Some 99) true) = None /\
  (@Model_save_Product lcg (new_Product "ghost" (Some 99) true, shop)).1
  = Raise IntegrityError /\
  w_products (@Model_save_Product lcg (new_Product "ghost" (Some 99) true, shop)).2.2
  = w_products shop /\
  w_categories (@Model_save_Product lcg (new_Product "ghost" (Some 99) true, shop)).2.2
  = w_categories shop.
Proof.
  split; [reflexivity|].
  apply (proj2 (proj2 (@Product_save_new_succeeds_iff lcg
                         (new_Product "ghost" (Some 99) true) shop eq_refl)
                  eq_refl)).
  vm_compute. discriminate.
Defined.

(** X17.  [created_at] is set once and [updated_at] follows every save.  The
    first save of a new Product reads the clock twice, for [created_at] and
    then for [updated_at], so that [updated_at] is later by the time that
    passed between the two readings.  When what that save returned is saved
    again while its row is still stored, [created_at] stays and
    [updated_at] moves to the time of the second save. *)
Theorem Product_save_timestamps `{R : RandomGen} (p p1 p2 : Product)
    (w w1 w2 w3 : World) (k : nat) :
  p_id p = None ->
  Model_save_Product (p, w) = (Ok tt, (p1, w1)) ->
  p_id p1 = Some k -> is_Some (w_products w2 !! k) ->
  Model_save_Product (p1, w2) = (Ok tt, (p2, w3)) ->
  p_created_at p1 = Some (w_now w) /\
  p_updated_at p1 = Some (w_now w + w_latency w)%N /\
  p_created_at p2 = Some (w_now w) /\ p_updated_at p2 = Some (w_now w2) /\
  w_products w3 !! k = Some p2.
Proof.
  intros Hid Hfirst Hk Hrow Hsecond.
  rewrite (Model_save_Product_new p w Hid) in Hfirst. cbv zeta in Hfirst.
  destruct (price_fits p) in Hfirst; [|done].
  destruct (write_Product _ _ _ _) as [t|] in Hfirst; [|done].
  injection Hfirst as <- <-.
  rewrite (Model_save_Product_update _ w2 k Hk Hrow) in Hsecond. cbv zeta in Hsecond.
  destruct (price_fits _) in Hsecond; [|done].
  destruct (write_Product k _ _ _) as [t2|] eqn:Hw2 in Hsecond; [|done].
  injection Hsecond as <- <-.
  apply write_Product_iff in Hw2 as (-> & _).
  repeat split. cbn. apply lookup_insert_eq.
Qed.

Lemma Product_save_timestamps_witness :
  let first := @Model_save_Product lcg (new_Product "iphone" (Some 3) true,
                                        @run_op lcg no_decomp (Latency 2) shop) in
  let later := @run_op lcg no_decomp (Tick 5) first.2.2 in
  let second := @Model_save_Product lcg (first.2.1, later) in
  p_created_at first.2.1 = Some 1000%N /\ p_updated_at first.2.1 = Some 1002%N /\
  p_created_at second.2.1 = Some 1000%N /\ p_updated_at second.2.1 = Some 1009%N.
Proof.
  cbv zeta.
  set (busy := @run_op lcg no_decomp (Latency 2) shop).
  set (first := @Model_save_Product lcg (new_Product "iphone" (Some 3) true, busy)).
  set (later := @run_op lcg no_decomp (Tick 5) first.2.2).
  set (second := @Model_save_Product lcg (first.2.1, later)).
  destruct (@Product_save_timestamps lcg (new_Product "iphone" (Some 3) true)
              first.2.1 second.2.1 busy first.2.2 later second.2.2 3)
    as (Hc1 & Hu1 & Hc2 & Hu2 & _).
  - reflexivity.
  - vm_compute. reflexivity.
  - vm_compute. reflexivity.
  - vm_compute. eauto.
  - vm_compute. reflexivity.
  - rewrite Hc1, Hu1, Hc2, Hu2. clear. vm_compute. repeat split.
Defined.

(** ** Slug collisions *)

(** X18.  [save] does not retry a generated slug that is taken.  When two
    new Categories with the same name are saved without slug, one after the
    other, and the generator gives the second the token it gave the first,
    the second save raises [IntegrityError] and stores nothing. *)
Theorem Category_save_does_not_retry `{R : RandomGen} (decomp : N -> pystr)
    (self1 self1' self2 : Category) (w w1 : World) :
  c_slug self1 = [] -> c_slug self2 = [] ->
  c_id self2 = None ->
  c_name self2 = c_name self1 ->
  Category_save decomp (self1, w) = (Ok tt, (self1', w1)) ->
  (rand_slug (w_random w1)).1 = (rand_slug (w_random w)).1 ->
  (Category_save decomp (self2, w1)).1 = Raise IntegrityError /\
  w_categories (Category_save decomp (self2, w1)).2.2 = w_categories w1.
Proof.
  intros Hs1 Hs2 Hid2 Hname Hfirst Htoken.
  destruct (Category_save_generated decomp self1 w Hs1)
    as (a1 & a2 & a3 & _ & _ & _ & Htok1 & Hslug1 & _).
  destruct (Category_save_generated decomp self2 w1 Hs2)
    as (b1 & b2 & b3 & _ & _ & _ & Htok2 & Hslug2 & _).
  rewrite Htoken, Htok1 in Htok2. injection Htok2 as <- <- <-.
  rewrite Hname, <- Hslug1, Hfirst in Hslug2. cbn [fst snd] in Hslug2.
  assert (Hstored : exists i, w_categories w1 !! i = Some self1').
  { destruct (Category_save_settled decomp self1 w) as (s0 & g & Hsave & _).
    rewrite Hsave in Hfirst.
    apply Model_save_Category_Ok in Hfirst as (i & _ & -> & _).
    exists i. apply lookup_insert_eq. }
  destruct Hstored as [i Hi].
  destruct (Category_save_settled decomp self2 w1)
    as (s0 & g & Hsave & _ & Hslug0 & Hid0 & _).
  rewrite Hsave in Hslug2 |- *.
  destruct (Model_save_Category (s0, set_w_random g w1)) as [[[]|e] [self2' w2]]
    eqn:Hsecond.
  - exfalso.
    pose proof (proj1 (Model_save_Category_new_iff s0 (set_w_random g w1)
                         (eq_trans Hid0 Hid2))) as Hnew.
    rewrite Hsecond in Hnew. destruct (Hnew eq_refl) as [Hfresh _].
    apply (Hfresh i self1' Hi).
    destruct (Model_save_Category_frame s0 (set_w_random g w1)) as (Hfr & _).
    rewrite Hsecond in Hfr. cbn [fst snd] in *. congruence.
  - apply Model_save_Category_Raise in Hsecond as (-> & Ht & _). done.
Qed.

Lemma Category_save_does_not_retry_witness :
  let w := @empty_world constant_gen tt 0%N in
  let first := @Category_save constant_gen no_decomp (new_Category "Phones" None "", w) in
  first.1 = Ok tt /\
  (@Category_save constant_gen no_decomp (new_Category "Phones" None "", first.2.2)).1
  = Raise IntegrityError.
Proof.
  cbv zeta. split; [vm_compute; reflexivity|].
  set (w := @empty_world constant_gen tt 0%N).
  set (first := @Category_save constant_gen no_decomp (new_Category "Phones" None "", w)).
  apply (@Category_save_does_not_retry constant_gen no_decomp
           (new_Category "Phones" None "") first.2.1
           (new_Category "Phones" None "") w first.2.2);
    vm_compute; reflexivity.
Defined.

(** X19.  Deleting a Category frees its slug: when slugs are unique, a new
    parentless Category with the slug of a Category that was just deleted
    is saved without error. *)
Theorem Category_delete_frees_slug `{R : RandomGen} (decomp : N -> pystr)
    (self fresh_one : Category) (i : nat) (r : Category) (w : World) :
  slug_unique (w_categories w) ->
  w_categories w !! i = Some r ->
  c_id self = Some i ->
  c_id fresh_one = None -> c_parent fresh_one = None ->
  c_slug fresh_one = c_slug r -> c_slug r <> [] ->
  (Category_save decomp (fresh_one, (Category_delete (self, w)).2.2)).1 = Ok tt.
Proof.
  intros Huniq Hrow Hid Hnew Hroot Hslug Hne.
  destruct (Category_delete_tables self i w Hid) as (_ & Hc & _).
  set (w' := (Category_delete (self, w)).2.2) in *.
  destruct (Category_save_settled decomp fresh_one w')
    as (s0 & g & Hsave & _ & _ & Hid0 & Hpar0 & _ & _ & Hsame).
  destruct Hsame as [-> ->]; [congruence|].
  rewrite Hsave. apply Model_save_Category_new_iff; [done|]. cbn.
  split; [|intros p; congruence].
  intros j r' Hj Heq. apply Hc in Hj as (Hj & Hji & _).
  apply Hji. eapply (Huniq j i r' r); congruence.
Qed.

Lemma Category_delete_frees_slug_witness :
  (@Category_save lcg no_decomp
     (new_Category "Notebooks" None "laptops",
      (@Category_delete lcg (stored 4 (new_Category "Laptops" None "laptops"),
                             catalogue)).2.2)).1 = Ok tt.
Proof.
  apply (@Category_delete_frees_slug lcg no_decomp
           (stored 4 (new_Category "Laptops" None "laptops"))
           (new_Category "Notebooks" None "laptops") 4
           (stored 4 (new_Category "Laptops" None "laptops")) catalogue).
  - apply (run_ops_invariant no_decomp (fun w => slug_unique (w_categories w))).
    + apply run_op_slug_unique.
    + intros ? ? ? ? Hempty. cbn in Hempty. by rewrite lookup_empty in Hempty.
  - vm_compute. reflexivity.
  - reflexivity.
  - reflexivity.
  - reflexivity.
  - reflexivity.
  - discriminate.
Defined.

(** ** The breadcrumb, step by step *)

Lemma join_snoc (sep : pystr) (parts : list pystr) (x : pystr) :
  parts <> [] -> join sep (parts ++ [x]) = join sep parts ++ sep ++ x.
Proof.
  induction parts as [|p parts IH]; [done|]. intros _.
  destruct parts as [|q parts]; [reflexivity|].
  change (join sep ((p :: q :: parts) ++ [x]))
    with (p ++ sep ++ join sep ((q :: parts) ++ [x])).
  rewrite IH by done. cbn [join]. by rewrite <- !app_assoc.
Qed.

Lemma Category_str_loop_cons (table : gmap nat Category) (x : pystr) (fuel : nat) :
  forall (full_path : list pystr) (k : option Category) (s : pystr),
    full_path <> [] ->
    Category_str_loop fuel table full_path k = Returns s ->
    Category_str_loop fuel table (x :: full_path) k = Returns (s ++ arrow ++ x).
Proof.
  assert (Hbase : forall full_path s,
            full_path <> [] ->
            Returns (join arrow (rev full_path)) = Returns s ->
            Returns (join arrow (rev (x :: full_path))) = Returns (s ++ arrow ++ x)).
  { intros full_path s Hne [= <-]. cbn [rev]. rewrite join_snoc; [done|].
    intros Hrev. apply (f_equal (@rev pystr)) in Hrev.
    rewrite rev_involutive in Hrev. done. }
  induction fuel as [|fuel IH]; intros full_path k s Hne.
  - destruct k; [done|]. by apply Hbase.
  - destruct k as [kc|]; [|by apply Hbase].
    cbn [Category_str_loop]. destruct (get_parent table kc) as [k'|e]; [|done].
    change ((x :: full_path) ++ [c_name kc]) with (x :: (full_path ++ [c_name kc])).
    apply IH. by destruct full_path.
Qed.

(** X20.  The breadcrumb grows by one step per level: [__str__] of a
    Category without parent is its name, and whenever [__str__] of the
    stored parent returns a string, [__str__] of the child, given one more
    iteration, returns that string, then " -> ", then the child's name. *)
Theorem Category_str_extends_parent (table : gmap nat Category)
    (self parent : Category) (p : nat) (fuel : nat) (s : pystr) :
  (c_parent self = None ->
   Category_str fuel table self = Returns (c_name self)) /\
  (c_parent self = Some p -> table !! p = Some parent ->
   Category_str fuel table parent = Returns s ->
   Category_str (S fuel) table self
   = Returns (s ++ pystr_of_string " -> " ++ c_name self)).
Proof.
  split.
  - intros Hroot. unfold Category_str, get_parent. rewrite Hroot. by destruct fuel.
  - intros Hpar Hrow Hret.
    assert (Hself : get_parent table self = Ok (Some parent))
      by (unfold get_parent; by rewrite Hpar, Hrow).
    unfold Category_str in *. rewrite Hself. cbn [Category_str_loop app].
    destruct (get_parent table parent) as [k'|e]; [|done].
    by apply (Category_str_loop_cons table (c_name self)) in Hret.
Qed.

Lemma Category_str_extends_parent_witness :
  Category_str 0 (w_categories catalogue)
    (stored 1 (new_Category "Phones" None "phones"))
  = Returns (pystr_of_string "Phones") /\
  Category_str 1 (w_categories catalogue)
    (stored 2 (new_Category "Android" (Some 1) "android"))
  = Returns (pystr_of_string "Phones -> Android").
Proof.
  destruct (Category_str_extends_parent (w_categories catalogue)
              (stored 1 (new_Category "Phones" None "phones"))
              (stored 1 (new_Category "Phones" None "phones"))
              1 0 []) as [Hroot _].
  destruct (Category_str_extends_parent (w_categories catalogue)
              (stored 2 (new_Category "Android" (Some 1) "android"))
              (stored 1 (new_Category "Phones" None "phones"))
              1 0 (pystr_of_string "Phones")) as [_ Hchild].
  split; [exact (Hroot eq_refl)|].
  apply Hchild; [reflexivity | vm_compute; reflexivity | exact (Hroot eq_refl)].
Defined.
